(** * pg-example: the [Client] of [src/index.js]

    A shallow embedding of the client-side binding of the PKG: the
    length-prefixed, padded payload framing done by [Client.encrypt] and
    undone by [Client.decrypt], and the session-token cache of
    [Client.requestToken].

    JavaScript values are restricted to the JSON-shaped fragment with
    integer Numbers ([jsval]).  The builtins whose behaviour reaches beyond
    that fragment ([JSON.parse], [TextEncoder], [TextDecoder], the
    comparison of a Number with a String, the local time zone) are the
    fields of the class [Runtime]; [ref_runtime] is an executable instance
    for ASCII JSON text with integer numerals. *)

From Stdlib Require Import ZArith Strings.String Strings.Ascii Strings.Byte.
From Stdlib Require Import DecimalString DecimalZ.
From stdpp Require Import base option list gmap strings numbers.

Local Open Scope Z_scope.

(** ** Outcomes of a call: a value or a thrown exception *)

Inductive error : Type :=
  | ModuleNotLoaded          (* Error('WASM module not loaded yet') *)
  | TooLarge                 (* Error('Too large to encrypt') *)
  | SyntaxError              (* thrown by JSON.parse *)
  | RangeError               (* thrown by ArrayBuffer / TypedArray.set *)
  | NotOk                    (* Error('not ok') *)
  | NotValid                 (* Error('not valid') *)
  | Rejected (reason : string). (* a collaborator's promise was rejected *)

Inductive result (A : Type) : Type :=
  | OK (a : A)
  | Throw (e : error).
Arguments OK {A} a.
Arguments Throw {A} e.

Definition result_bind {A B} (r : result A) (k : A → result B) : result B :=
  match r with
  | OK a => k a
  | Throw e => Throw e
  end.

Definition is_OK {A} (r : result A) : bool :=
  match r with OK _ => true | Throw _ => false end.

(** ** Numbers: the 32-bit integer operators of JavaScript *)

Module Int32.

Definition ToInt32 (z : Z) : Z := (z + 2 ^ 31) mod 2 ^ 32 - 2 ^ 31.

(** [a >> b] *)
Definition shr (a b : Z) : Z := Z.shiftr (ToInt32 a) (b mod 32).
(** [a << b] *)
Definition shl (a b : Z) : Z := ToInt32 (Z.shiftl (ToInt32 a) (b mod 32)).
(** [a & b] *)
Definition and (a b : Z) : Z := ToInt32 (Z.land (ToInt32 a) (ToInt32 b)).
(** [a | b] *)
Definition or (a b : Z) : Z := ToInt32 (Z.lor (ToInt32 a) (ToInt32 b)).

End Int32.

(** ** Typed arrays: [Uint8Array] as [list byte] *)

Module Uint8Array.

Definition to_Z (b : byte) : Z := Z.of_N (Byte.to_N b).

(** The conversion applied by a store into a [Uint8Array]: modulo 256. *)
Definition ToUint8 (z : Z) : byte :=
  default "000"%byte (Byte.of_N (Z.to_N (z mod 256))).

(** [new ArrayBuffer(n)]: zero-initialised; a negative length throws. *)
Definition alloc (n : Z) : result (list byte) :=
  if n <? 0 then Throw RangeError
  else OK (replicate (Z.to_nat n) "000"%byte).

(** [buf[i]] read as an operand of a 32-bit operator: an index outside
    the array reads [undefined], which converts to 0. *)
Definition get (buf : list byte) (i : nat) : Z :=
  match buf !! i with
  | Some b => to_Z b
  | None => 0
  end.

(** [buf[i] = z]: a store outside the array is ignored. *)
Definition put (buf : list byte) (i : nat) (z : Z) : list byte :=
  <[i := ToUint8 z]> buf.

(** [new Uint8Array(buf, off).set(src)]: copies [src] to offset [off];
    throws when the view cannot be made or [src] does not fit in it. *)
Definition set_at (buf : list byte) (off : nat) (src : list byte)
  : result (list byte) :=
  if decide (length buf < off + length src)%nat then Throw RangeError
  else OK (take off buf ++ src ++ drop (off + length src) buf).

(** [buf.slice(start, end)] for non-negative [start] and [end]: both
    ends are clamped to the length. *)
Definition slice (buf : list byte) (start end_ : Z) : list byte :=
  let len := Z.of_nat (length buf) in
  let k := Z.min start len in
  let final := Z.min end_ len in
  let count := Z.max (final - k) 0 in
  take (Z.to_nat count) (drop (Z.to_nat k) buf).

End Uint8Array.

(** ** Values *)

#[local] Unset Elimination Schemes.
Inductive jsval : Type :=
  | VUndefined
  | VNull
  | VBool (b : bool)
  | VNum (n : Z)
  | VStr (s : string)
  | VArr (elems : list jsval)
  | VObj (props : list (string * jsval)).
    (* own enumerable properties, in property order *)
#[local] Set Elimination Schemes.

(** ToBoolean *)
Definition truthy (v : jsval) : bool :=
  match v with
  | VUndefined | VNull => false
  | VBool b => b
  | VNum n => negb (n =? 0)
  | VStr s => negb (String.eqb s "")
  | VArr _ | VObj _ => true
  end.

Fixpoint assoc (k : string) (props : list (string * jsval)) : option jsval :=
  match props with
  | [] => None
  | (k', v) :: rest => if String.eqb k k' then Some v else assoc k rest
  end.

(** Number::toString on an integer: its decimal numeral. *)
Definition Number_toString (n : Z) : string :=
  NilZero.string_of_int (Z.to_int n).

(** [Object.keys(v)]: the own enumerable string keys.  A primitive other
    than a String has none; a String and an Array have their indices. *)
Definition Object_keys (v : jsval) : list string :=
  match v with
  | VObj props => props.*1
  | VArr elems => (λ i, Number_toString (Z.of_nat i)) <$> seq 0 (length elems)
  | VStr s => (λ i, Number_toString (Z.of_nat i)) <$> seq 0 (String.length s)
  | _ => []
  end.

(** [v.k] for a property name [k] that no prototype defines (such as
    [token], [validUntil], [type], [value]). *)
Definition get_prop (v : jsval) (k : string) : jsval :=
  match v with
  | VObj props => default VUndefined (assoc k props)
  | _ => VUndefined
  end.

(** ** JSON.stringify

    SerializeJSONProperty on [jsval]: [undefined] has no serialization
    ([None]); inside an Array it is written [null], inside an Object the
    property is skipped.  Properties are written in property order. *)

Definition hex_digit (n : N) : ascii :=
  if (n <? 10)%N then ascii_of_N (48 + n) else ascii_of_N (87 + n).

(** The quotation mark, code unit 0x22. *)
Definition dquote : ascii := "034"%char.

(** The escape of one code unit by QuoteJSONString. *)
Definition quote_char (c : ascii) : string :=
  let n := N_of_ascii c in
  if (n =? 8)%N then "\b"
  else if (n =? 9)%N then "\t"
  else if (n =? 10)%N then "\n"
  else if (n =? 12)%N then "\f"
  else if (n =? 13)%N then "\r"
  else if (n =? 34)%N then String "\" (String c "")
  else if (n =? 92)%N then "\\"
  else if (n <? 32)%N then
    "\u00" +:+ String (hex_digit (n / 16)) (String (hex_digit (n mod 16)) "")
  else String c "".

Fixpoint quote_chars (s : string) : string :=
  match s with
  | EmptyString => ""
  | String c rest => quote_char c +:+ quote_chars rest
  end.

Definition QuoteJSONString (s : string) : string :=
  String dquote (quote_chars s +:+ String dquote "").

Fixpoint join_comma (l : list string) : string :=
  match l with
  | [] => ""
  | [s] => s
  | s :: rest => s +:+ "," +:+ join_comma rest
  end.

Fixpoint JSON_stringify (v : jsval) : option string :=
  match v with
  | VUndefined => None
  | VNull => Some "null"
  | VBool true => Some "true"
  | VBool false => Some "false"
  | VNum n => Some (Number_toString n)
  | VStr s => Some (QuoteJSONString s)
  | VArr elems =>
      Some ("[" +:+ join_comma (map (λ x, default "null" (JSON_stringify x)) elems) +:+ "]")
  | VObj props =>
      Some ("{" +:+
        join_comma (omap (λ kv, match JSON_stringify kv.2 with
                                | Some s => Some (QuoteJSONString kv.1 +:+ ":" +:+ s)
                                | None => None
                                end) props) +:+ "}")
  end.

(** ** The builtins that reach beyond the fragment *)

Class Runtime : Type := {
  (** [JSON.parse(text)]: a value, or a thrown SyntaxError. *)
  JSON_parse : string → result jsval;
  (** [new TextEncoder().encode(s)]: the UTF-8 bytes of [s]. *)
  TextEncoder_encode : string → list byte;
  (** [new TextDecoder().decode(bytes)]: not in fatal mode, so it never
      throws; ill-formed input is replaced, not rejected. *)
  TextDecoder_decode : list byte → string;
  (** [n >= s] for a Number [n] and a String [s]. *)
  Number_ge_String : Z → string → bool;
  (** The offset of local time from UTC in milliseconds, taken constant. *)
  LocalTZA : Z;
}.

#[global] Instance result_ret : MRet result := @OK.
#[global] Instance result_mbind : MBind result := λ A B k r, result_bind r k.

(** ** The client *)

(** The compiled cryptographic module, [@e4a/irmaseal-wasm-bindings]. *)
Record WasmModule : Type := {
  wasm_extract_identity : list byte → result string;
  wasm_encrypt : jsval → jsval → jsval → list byte → result (list byte);
  wasm_decrypt : list byte → string → result (list byte);
}.

(** The parameters received from [/v1/parameters]. *)
Record Params : Type := {
  public_key : jsval;
  max_age : Z;   (* seconds *)
}.

(** The [@typedef Attribute]: an object, given by its properties in
    property order. *)
Definition Attribute : Type := list (string * jsval).

Record Client : Type := {
  url : string;
  params : Params;
  module : option WasmModule;
  localStorage : option (gmap string jsval);
}.

Section Codec.
Context `{Runtime}.

Definition paddingBits : Z := 9.

(** [(((l + 1) >> paddingBits) + 1) << paddingBits] *)
Definition paddedLength (l : Z) : Z :=
  Int32.shl (Int32.shr (l + 1) paddingBits + 1) paddingBits.

(** The bytes and the byte length of the serialized plaintext, lines
    72 to 74 of [encrypt].  [encode(undefined)] encodes the empty
    string. *)
Definition objectBytes (plaintextObject : jsval) : list byte :=
  TextEncoder_encode (default "" (JSON_stringify plaintextObject)).

Definition byteLength (plaintextObject : jsval) : Z :=
  Z.of_nat (length (objectBytes plaintextObject)).

(** The framing of [encrypt], lines 72 to 84 and 90: the padded buffer
    that is handed to the module. *)
Definition encode (plaintextObject : jsval) : result (list byte) :=
  let objectBytes := objectBytes plaintextObject in
  let l := Z.of_nat (length objectBytes) in
  if 65536 - 2 <=? l then Throw TooLarge
  else
    buf ← Uint8Array.alloc (paddedLength l);
    let buf8 := Uint8Array.put buf 0 (Int32.shr l 8) in
    let buf8 := Uint8Array.put buf8 1 (Int32.and l 255) in
    Uint8Array.set_at buf8 2 objectBytes.

Definition encrypt (this : Client) (attribute : Attribute)
    (plaintextObject : jsval) : result (list byte) :=
  match module this with
  | None => Throw ModuleNotLoaded
  | Some m =>
      buf ← encode plaintextObject;
      wasm_encrypt m (get_prop (VObj attribute) "type")
        (get_prop (VObj attribute) "value") (public_key (params this)) buf
  end.

(** [(buf[0] << 8) | buf[1]] *)
Definition length_prefix (buf : list byte) : Z :=
  Int32.or (Int32.shl (Uint8Array.get buf 0) 8) (Uint8Array.get buf 1).

(** The unframing of [decrypt], lines 103 to 105. *)
Definition decode (buf : list byte) : result jsval :=
  let len := length_prefix buf in
  JSON_parse (TextDecoder_decode (Uint8Array.slice buf 2 (2 + len))).

Definition decrypt (this : Client) (usk : string)
    (irmasealBytestream : list byte) : result jsval :=
  match module this with
  | None => Throw ModuleNotLoaded
  | Some m =>
      buf ← wasm_decrypt m irmasealBytestream usk;
      decode buf
  end.

(** [extractIdentity] *)
Definition extractIdentity (this : Client) (irmasealBytestream : list byte)
  : result jsval :=
  match module this with
  | None => Throw ModuleNotLoaded
  | Some m =>
      serialized ← wasm_extract_identity m irmasealBytestream;
      JSON_parse serialized
  end.

End Codec.

(** ** A reference runtime

    An executable instance of [Runtime].  A String is held as its UTF-8
    form, so [TextEncoder] hands out the bytes of the string and
    [TextDecoder] is the UTF-8 decoder of the Encoding Standard composed
    with re-encoding: well-formed input is kept, each ill-formed part is
    replaced by U+FFFD, a leading byte order mark is dropped.  [JSON.parse]
    accepts the JSON grammar with integer numerals; a numeral with a
    fraction or an exponent and the escape of a lone surrogate denote
    values outside [jsval] and are rejected here. *)

Module Ref.

Open Scope N_scope.

(** *** UTF-8 *)

Definition U_FFFD : list N := [239; 191; 189].

Record utf8_state : Type := {
  pending : list N;   (* the bytes of the sequence read so far *)
  needed : nat;       (* continuation bytes still expected *)
  lower : N;          (* bounds of the next continuation byte *)
  upper : N;
}.

Definition utf8_idle : utf8_state :=
  {| pending := []; needed := 0; lower := 128; upper := 191 |}.

(** A byte read with no sequence in progress. *)
Definition utf8_lead (b : N) : list N * utf8_state :=
  if b <=? 127 then ([b], utf8_idle)
  else if (194 <=? b) && (b <=? 223) then
    ([], {| pending := [b]; needed := 1; lower := 128; upper := 191 |})
  else if (224 <=? b) && (b <=? 239) then
    ([], {| pending := [b]; needed := 2;
            lower := if b =? 224 then 160 else 128;
            upper := if b =? 237 then 159 else 191 |})
  else if (240 <=? b) && (b <=? 244) then
    ([], {| pending := [b]; needed := 3;
            lower := if b =? 240 then 144 else 128;
            upper := if b =? 244 then 143 else 191 |})
  else (U_FFFD, utf8_idle).

Definition utf8_step (st : utf8_state) (b : N) : list N * utf8_state :=
  match needed st with
  | O => utf8_lead b
  | S n =>
      if (lower st <=? b) && (b <=? upper st) then
        match n with
        | O => (pending st ++ [b], utf8_idle)
        | S _ => ([], {| pending := pending st ++ [b]; needed := n;
                         lower := 128; upper := 191 |})
        end
      else
        let '(out, st') := utf8_lead b in (U_FFFD ++ out, st')
  end.

Fixpoint utf8_run (st : utf8_state) (bs : list N) : list N :=
  match bs with
  | [] => match needed st with O => [] | S _ => U_FFFD end
  | b :: rest => let '(out, st') := utf8_step st b in out ++ utf8_run st' rest
  end.

Definition drop_BOM (bs : list N) : list N :=
  match bs with
  | 239 :: 187 :: 191 :: rest => rest
  | _ => bs
  end.

Definition string_of_codes (l : list N) : string :=
  string_of_list_ascii (ascii_of_N <$> l).

Definition codes_of_string (s : string) : list N :=
  N_of_ascii <$> list_ascii_of_string s.

Definition TextEncoder_encode (s : string) : list byte := list_byte_of_string s.

Definition TextDecoder_decode (bytes : list byte) : string :=
  string_of_codes (utf8_run utf8_idle (drop_BOM (Byte.to_N <$> bytes))).

(** The UTF-8 form of a code point. *)
Definition utf8_of_code_point (c : N) : list N :=
  if c <? 128 then [c]
  else if c <? 2048 then [192 + c / 64; 128 + c mod 64]
  else if c <? 65536 then [224 + c / 4096; 128 + (c / 64) mod 64; 128 + c mod 64]
  else [240 + c / 262144; 128 + (c / 4096) mod 64; 128 + (c / 64) mod 64;
        128 + c mod 64].

(** *** JSON.parse *)

Definition is_ws (c : N) : bool := (c =? 32) || (c =? 9) || (c =? 10) || (c =? 13).

Fixpoint skip_ws (s : string) : string :=
  match s with
  | String c r => if is_ws (N_of_ascii c) then skip_ws r else s
  | EmptyString => s
  end.

Fixpoint strip_prefix (p s : string) : option string :=
  match p, s with
  | EmptyString, _ => Some s
  | String a p', String b s' => if Ascii.eqb a b then strip_prefix p' s' else None
  | String _ _, EmptyString => None
  end.

Definition hex_value (c : ascii) : option N :=
  let n := N_of_ascii c in
  if (48 <=? n) && (n <=? 57) then Some (n - 48)
  else if (97 <=? n) && (n <=? 102) then Some (n - 87)
  else if (65 <=? n) && (n <=? 70) then Some (n - 55)
  else None.

Definition hex4 (a b c d : ascii) : option N :=
  match hex_value a, hex_value b, hex_value c, hex_value d with
  | Some a, Some b, Some c, Some d => Some (((a * 16 + b) * 16 + c) * 16 + d)
  | _, _, _, _ => None
  end.

(** The character named by a one-letter escape. *)
Definition unescape (c : ascii) : option ascii :=
  let n := N_of_ascii c in
  if (n =? 34) || (n =? 92) || (n =? 47) then Some c
  else if n =? 98 then Some (ascii_of_N 8)
  else if n =? 102 then Some (ascii_of_N 12)
  else if n =? 110 then Some (ascii_of_N 10)
  else if n =? 114 then Some (ascii_of_N 13)
  else if n =? 116 then Some (ascii_of_N 9)
  else None.

Definition is_high_surrogate (u : N) : bool := (55296 <=? u) && (u <=? 56319).
Definition is_low_surrogate (u : N) : bool := (56320 <=? u) && (u <=? 57343).

(** The characters of a string literal after its opening quotation mark:
    the string denoted and the text after the closing quotation mark. *)
Fixpoint parse_chars (s : string) : option (string * string) :=
  match s with
  | EmptyString => None
  | String c r =>
      let n := N_of_ascii c in
      if n =? 34 then Some (EmptyString, r)
      else if n =? 92 then
        match r with
        | EmptyString => None
        | String e r1 =>
            if N_of_ascii e =? 117 then
              match r1 with
              | String h1 (String h2 (String h3 (String h4 r2))) =>
                  match hex4 h1 h2 h3 h4 with
                  | None => None
                  | Some u =>
                      if is_low_surrogate u then None
                      else if is_high_surrogate u then
                        match r2 with
                        | String b (String e' (String l1 (String l2 (String l3 (String l4 r3))))) =>
                            if (N_of_ascii b =? 92) && (N_of_ascii e' =? 117) then
                              match hex4 l1 l2 l3 l4 with
                              | None => None
                              | Some lo =>
                                  if is_low_surrogate lo then
                                    match parse_chars r3 with
                                    | Some (cs, rest) =>
                                        Some (string_of_codes (utf8_of_code_point
                                                (65536 + (u - 55296) * 1024 + (lo - 56320))) +:+ cs,
                                              rest)
                                    | None => None
                                    end
                                  else None
                              end
                            else None
                        | _ => None
                        end
                      else
                        match parse_chars r2 with
                        | Some (cs, rest) =>
                            Some (string_of_codes (utf8_of_code_point u) +:+ cs, rest)
                        | None => None
                        end
                  end
              | _ => None
              end
            else
              match unescape e with
              | None => None
              | Some ch =>
                  match parse_chars r1 with
                  | Some (cs, rest) => Some (String ch cs, rest)
                  | None => None
                  end
              end
        end
      else if n <? 32 then None
      else
        match parse_chars r with
        | Some (cs, rest) => Some (String c cs, rest)
        | None => None
        end
  end.

Definition is_digit (c : ascii) : bool :=
  (48 <=? N_of_ascii c) && (N_of_ascii c <=? 57).

Fixpoint span_digits (s : string) : string * string :=
  match s with
  | String c r =>
      if is_digit c then let '(ds, rest) := span_digits r in (String c ds, rest)
      else (EmptyString, s)
  | EmptyString => (EmptyString, EmptyString)
  end.

(** Does a fraction or an exponent follow? *)
Definition continues_numeral (s : string) : bool :=
  match s with
  | String c _ =>
      let n := N_of_ascii c in (n =? 46) || (n =? 101) || (n =? 69)
  | EmptyString => false
  end.

Definition leading_zero (ds : string) : bool :=
  match ds with
  | String d (String _ _) => N_of_ascii d =? 48
  | _ => false
  end.

(** An integer numeral: [-]? then [0] or a digit run without leading 0. *)
Definition parse_number (s : string) : option (Z * string) :=
  let '(sign, s1) :=
    match s with
    | String c r => if N_of_ascii c =? 45 then ("-"%string, r) else (EmptyString, s)
    | EmptyString => (EmptyString, s)
    end in
  let '(ds, rest) := span_digits s1 in
  match ds with
  | EmptyString => None
  | String _ _ =>
      if leading_zero ds || continues_numeral rest then None
      else
        match NilZero.int_of_string (sign +:+ ds) with
        | Some d => Some (Z.of_int d, rest)
        | None => None
        end
  end.

(** *** Property creation, for the object built by [JSON.parse] *)

(** An array index is the canonical numeral of an integer below 2^32 - 1. *)
Definition array_index (k : string) : option N :=
  match NilEmpty.uint_of_string k with
  | Some u =>
      let n := N.of_uint u in
      if String.eqb (Number_toString (Z.of_N n)) k && (n <? 4294967295)
      then Some n else None
  | None => None
  end.

Fixpoint replace_prop (k : string) (v : jsval) (props : list (string * jsval))
  : list (string * jsval) :=
  match props with
  | [] => []
  | (k', v') :: rest =>
      if String.eqb k k' then (k', v) :: rest else (k', v') :: replace_prop k v rest
  end.

(** A new index key goes before the first key that is a larger index or
    no index. *)
Fixpoint insert_index (n : N) (k : string) (v : jsval)
    (props : list (string * jsval)) : list (string * jsval) :=
  match props with
  | [] => [(k, v)]
  | (k', v') :: rest =>
      match array_index k' with
      | Some n' =>
          if n' <? n then (k', v') :: insert_index n k v rest
          else (k, v) :: props
      | None => (k, v) :: props
      end
  end.

(** CreateDataProperty, keeping [props] in property order: index keys
    ascending first, then the other keys in creation order; an existing
    key keeps its place. *)
Definition define_property (props : list (string * jsval)) (k : string)
    (v : jsval) : list (string * jsval) :=
  match assoc k props with
  | Some _ => replace_prop k v props
  | None =>
      match array_index k with
      | Some n => insert_index n k v props
      | None => props ++ [(k, v)]
      end
  end.

Definition object_of_members (ms : list (string * jsval)) : jsval :=
  VObj (fold_left (λ props kv, define_property props kv.1 kv.2) ms []).

(** *** The value parser

    Recursive descent; [fuel] bounds the depth of the calls, and
    [JSON_parse] gives it more than the text can use. *)

Definition code (c : ascii) : N := N_of_ascii c.

Fixpoint parse_value (fuel : nat) (s : string) : option (jsval * string) :=
  match fuel with
  | O => None
  | S fuel =>
      match skip_ws s with
      | EmptyString => None
      | String c r =>
          if code c =? 123 then            (* { *)
            match skip_ws r with
            | EmptyString => None
            | String c' r' =>
                if code c' =? 125 then Some (VObj [], r')
                else
                  match parse_members fuel r with
                  | Some (ms, rest) => Some (object_of_members ms, rest)
                  | None => None
                  end
            end
          else if code c =? 91 then        (* [ *)
            match skip_ws r with
            | EmptyString => None
            | String c' r' =>
                if code c' =? 93 then Some (VArr [], r')
                else
                  match parse_elements fuel r with
                  | Some (vs, rest) => Some (VArr vs, rest)
                  | None => None
                  end
            end
          else if code c =? 34 then
            match parse_chars r with
            | Some (str, rest) => Some (VStr str, rest)
            | None => None
            end
          else if code c =? 110 then
            match strip_prefix "ull" r with
            | Some rest => Some (VNull, rest)
            | None => None
            end
          else if code c =? 116 then
            match strip_prefix "rue" r with
            | Some rest => Some (VBool true, rest)
            | None => None
            end
          else if code c =? 102 then
            match strip_prefix "alse" r with
            | Some rest => Some (VBool false, rest)
            | None => None
            end
          else
            match parse_number (String c r) with
            | Some (n, rest) => Some (VNum n, rest)
            | None => None
            end
      end
  end

(** The elements of a non-empty array, up to and including [']']. *)
with parse_elements (fuel : nat) (s : string) : option (list jsval * string) :=
  match fuel with
  | O => None
  | S fuel =>
      match parse_value fuel s with
      | None => None
      | Some (v, rest) =>
          match skip_ws rest with
          | EmptyString => None
          | String c r =>
              if code c =? 44 then
                match parse_elements fuel r with
                | Some (vs, rest') => Some (v :: vs, rest')
                | None => None
                end
              else if code c =? 93 then Some ([v], r)
              else None
          end
      end
  end

(** The members of a non-empty object, up to and including ['}']. *)
with parse_members (fuel : nat) (s : string)
  : option (list (string * jsval) * string) :=
  match fuel with
  | O => None
  | S fuel =>
      match skip_ws s with
      | EmptyString => None
      | String q r =>
          if code q =? 34 then
            match parse_chars r with
            | None => None
            | Some (k, rest) =>
                match skip_ws rest with
                | EmptyString => None
                | String colon r1 =>
                    if code colon =? 58 then
                      match parse_value fuel r1 with
                      | None => None
                      | Some (v, rest1) =>
                          match skip_ws rest1 with
                          | EmptyString => None
                          | String c r2 =>
                              if code c =? 44 then
                                match parse_members fuel r2 with
                                | Some (ms, rest2) => Some ((k, v) :: ms, rest2)
                                | None => None
                                end
                              else if code c =? 125 then Some ([(k, v)], r2)
                              else None
                          end
                      end
                    else None
                end
            end
          else None
      end
  end.

Definition JSON_parse (text : string) : result jsval :=
  match parse_value (S (String.length text)) text with
  | Some (v, rest) =>
      match skip_ws rest with
      | EmptyString => OK v
      | String _ _ => Throw SyntaxError
      end
  | None => Throw SyntaxError
  end.

(** [n >= s]: the String is converted to a Number; the empty string is
    0, a signed decimal integer is itself, and this instance takes
    every other string as NaN, for which the comparison is false. *)
Definition Number_ge_String (n : Z) (s : string) : bool :=
  if String.eqb s "" then (0 <=? n)%Z
  else
    match NilEmpty.int_of_string s with
    | Some d => (Z.of_int d <=? n)%Z
    | None => false
    end.

End Ref.

#[global] Instance ref_runtime : Runtime := {|
  JSON_parse := Ref.JSON_parse;
  TextEncoder_encode := Ref.TextEncoder_encode;
  TextDecoder_decode := Ref.TextDecoder_decode;
  Number_ge_String := Ref.Number_ge_String;
  LocalTZA := 3600000;
|}.

(** ** The token cache *)

(** ToString, for the operands that reach a comparison. *)
Fixpoint ToString (v : jsval) : string :=
  match v with
  | VUndefined => "undefined"
  | VNull => "null"
  | VBool true => "true"
  | VBool false => "false"
  | VNum n => Number_toString n
  | VStr s => s
  | VArr elems =>
      join_comma (map (λ x, match x with
                            | VUndefined | VNull => ""
                            | _ => ToString x
                            end) elems)
  | VObj _ => "[object Object]"
  end.

(** What the world outside the client answers: the successive readings of
    [Date.now()], and the outcome of the popup session that
    [irmaFrontend.newPopup(...).start()] runs for a PKG url and a request
    body: the session mapping, or a rejection. *)
Record Environment : Type := {
  clock : nat → Z;
  irmaFrontend_start : string → option string → result jsval;
}.

Inductive event : Type :=
  | EvPopup (pkg : string) (body : option string)   (* a popup session was run *)
  | EvGet (key : string)                            (* localStorage.get *)
  | EvSet (entries : gmap string jsval).            (* localStorage.set *)

Record World : Type := {
  this : Client;
  ticks : nat;           (* readings of the clock so far *)
  trace : list event;    (* calls to the collaborators, latest first *)
}.

Definition M (A : Type) : Type := World → result A * World.

#[global] Instance M_ret : MRet M := λ A a w, (OK a, w).
#[global] Instance M_bind : MBind M := λ A B k m w,
  match m w with
  | (OK a, w') => k a w'
  | (Throw e, w') => (Throw e, w')
  end.

Definition with_storage (c : Client) (st : gmap string jsval) : Client :=
  {| url := url c; params := params c; module := module c;
     localStorage := Some st |}.

Definition storage (w : World) : gmap string jsval :=
  default ∅ (localStorage (this w)).

Definition log (e : event) (w : World) : World :=
  {| this := this w; ticks := ticks w; trace := e :: trace w |}.

(** [JSON.stringify(attribute)], the cache key.  An object always has a
    serialization; ["undefined"] is the property key that [undefined]
    would give. *)
Definition serializedAttr (attribute : Attribute) : string :=
  default "undefined" (JSON_stringify (VObj attribute)).

Section TokenCache.
Context `{Runtime} (env : Environment).

(** [Date.now()] *)
Definition Date_now : M Z := λ w,
  (OK (clock env (ticks w)),
   {| this := this w; ticks := S (ticks w); trace := trace w |}).

(** [t.getSeconds()], the seconds of the local time. *)
Definition Date_getSeconds (t : Z) : Z := ((t + LocalTZA) / 1000) mod 60.

(** [t.setSeconds(sec)]: the local time of [t] with its seconds field
    replaced (MakeTime carries an overflow into the minutes), as a time
    value. *)
Definition Date_setSeconds (t sec : Z) : Z :=
  let local := t + LocalTZA in
  let hours_minutes := local - local mod 60000 in
  let ms := local mod 1000 in
  hours_minutes + sec * 1000 + ms - LocalTZA.

(** [now >= v] *)
Definition ge (now : Z) (v : jsval) : bool :=
  match v with
  | VUndefined => false
  | VNull => 0 <=? now
  | VBool b => (if b then 1 else 0) <=? now
  | VNum n => n <=? now
  | VStr _ | VArr _ | VObj _ => Number_ge_String now (ToString v)
  end.

(** [localStorage.get(key)]: the mapping that holds [key] when the store
    has it. *)
Definition localStorage_get (key : string) : M jsval := λ w,
  (OK (VObj match storage w !! key with
            | Some v => [(key, v)]
            | None => []
            end),
   log (EvGet key) w).

(** [localStorage.set(entries)]: every entry replaces what the store had
    under its key. *)
Definition localStorage_set (entries : gmap string jsval) : M unit := λ w,
  (OK (),
   log (EvSet entries)
     {| this := with_storage (this w) (entries ∪ storage w);
        ticks := ticks w; trace := trace w |}).

(** [_requestToken(attribute)] *)
Definition _requestToken (attribute : Attribute) : M jsval := λ w,
  let pkg := url (this w) in
  let body := JSON_stringify (VObj [("attribute", VObj attribute)]) in
  let w' := log (EvPopup pkg body) w in
  match irmaFrontend_start env pkg body with
  | OK map => (OK (get_prop map "sessionToken"), w')
  | Throw e => (Throw e, w')
  end.

(** The test of line 173 to 175: is the cached entry to be refreshed? *)
Definition stale (cached : jsval) : M bool :=
  if negb (truthy cached) then mret true
  else if (length (Object_keys cached) =? 0)%nat then mret true
  else
    let validUntil := get_prop cached "validUntil" in
    if truthy validUntil then now ← Date_now; mret (ge now validUntil)
    else mret false.

Definition requestToken (attribute : Attribute) : M jsval := λ w,
  match localStorage (this w) with
  | None => _requestToken attribute w
  | Some _ =>
      (let serializedAttr := serializedAttr attribute in
       cacheObj ← localStorage_get serializedAttr;
       let cached := get_prop cacheObj serializedAttr in
       refresh ← stale cached;
       if refresh : bool then
         token ← _requestToken attribute;
         t ← Date_now;
         let validUntil :=
           Date_setSeconds t (Date_getSeconds t + max_age (params (this w))) in
         localStorage_set
           {[ serializedAttr := VObj [("token", token); ("validUntil", VNum validUntil)] ]};;
         mret token
       else mret (get_prop cached "token")) w
  end.

(** The entries that [requestToken] serves from the cache at time [now]:
    truthy, with at least one own key, and with a [validUntil] that is
    falsy or that [now >= validUntil] does not hold for. *)
Definition valid_entry (now : Z) (cached : jsval) : bool :=
  truthy cached
  && negb (length (Object_keys cached) =? 0)%nat
  && (negb (truthy (get_prop cached "validUntil"))
      || negb (ge now (get_prop cached "validUntil"))).

(** Does the test of the entry read the clock? *)
Definition reads_clock (cached : jsval) : bool :=
  truthy cached
  && negb (length (Object_keys cached) =? 0)%nat
  && truthy (get_prop cached "validUntil").

End TokenCache.

(** The world after the clock was read [n] more times, and after a call
    was logged. *)
Definition advance (n : nat) (w : World) : World :=
  {| this := this w; ticks := (ticks w + n)%nat; trace := trace w |}.

(** The entry under the key of [attribute], [undefined] when there is
    none. *)
Definition cached_entry (w : World) (attribute : Attribute) : jsval :=
  default VUndefined (storage w !! serializedAttr attribute).

(** The world in which the entry has been fetched and tested. *)
Definition tested (attribute : Attribute) (w : World) : World :=
  advance (if reads_clock (cached_entry w attribute) then 1 else 0)
    (log (EvGet (serializedAttr attribute)) w).

(** The body of the session request, and the entry written for a token
    obtained at time [t]. *)
Definition request_body (attribute : Attribute) : option string :=
  JSON_stringify (VObj [("attribute", VObj attribute)]).

Definition fresh_entry (token : jsval) (t max_age : Z) : jsval :=
  VObj [("token", token); ("validUntil", VNum (t + 1000 * max_age))].

(** The criterion of validity in the words of the specification: the
    entry exists, has at least one field, and has no [validUntil] field or
    one that [now] is strictly before. *)
Definition valid_as_specified (now : Z) (cached : jsval) : Prop :=
  cached ≠ VUndefined ∧
  Object_keys cached ≠ [] ∧
  ("validUntil" ∉ Object_keys cached ∨
   ∃ n, get_prop cached "validUntil" = VNum n ∧ now < n).

(** The popup sessions run, and the writes made to the store. *)
Definition popups (w : World) : list (string * option string) :=
  omap (λ e, match e with EvPopup pkg body => Some (pkg, body) | _ => None end)
    (trace w).

Definition writes (w : World) : list (gmap string jsval) :=
  omap (λ e, match e with EvSet entries => Some entries | _ => None end)
    (trace w).

(** A value is serializable when [JSON.stringify] gives it a text from
    which the runtime reads the value back. *)
Definition serializable `{Runtime} (x : jsval) : Prop :=
  ∃ s, JSON_stringify x = Some s ∧
       JSON_parse (TextDecoder_decode (TextEncoder_encode s)) = OK x.

(** ** Sample values, for the examples *)

Fixpoint repeat_char (n : nat) (c : ascii) : string :=
  match n with
  | O => EmptyString
  | S n => String c (repeat_char n c)
  end.

(** A String of [n] letters: its serialization has [n + 2] bytes. *)
Definition letters (n : nat) : jsval := VStr (repeat_char n "a").

Definition sample_object : jsval :=
  VObj [("subject", VStr "hello"); ("n", VNum 42); ("tags", VArr [VBool true; VNull])].

Definition sample_attribute : Attribute :=
  [("type", VStr "pbdf.sidn-pbdf.email.email"); ("value", VStr "alice@example.com")].

(** The same [type] and [value], written in the other order. *)
Definition sample_attribute_swapped : Attribute :=
  [("value", VStr "alice@example.com"); ("type", VStr "pbdf.sidn-pbdf.email.email")].

Definition sample_client (store : option (gmap string jsval)) : Client :=
  {| url := "https://pkg.example";
     params := {| public_key := VStr "pk"; max_age := 300 |};
     module := None;
     localStorage := store |}.

Definition sample_world (store : option (gmap string jsval)) : World :=
  {| this := sample_client store; ticks := 0; trace := [] |}.

(** A clock that advances five seconds between readings, and a session
    that succeeds. *)
Definition sample_env : Environment :=
  {| clock := λ n, 1700000000123 + 5000 * Z.of_nat n;
     irmaFrontend_start := λ _ _,
       OK (VObj [("sessionPtr", VNull); ("sessionToken", VStr "fresh")]) |}.

(** The same clock, and a session that the user abandons. *)
Definition failing_env : Environment :=
  {| clock := clock sample_env;
     irmaFrontend_start := λ _ _, Throw (Rejected "Aborted") |}.

Definition sample_entry (validUntil : Z) : jsval :=
  VObj [("token", VStr "T"); ("validUntil", VNum validUntil)].

Definition sample_store (validUntil : Z) : gmap string jsval :=
  {[ serializedAttr sample_attribute := sample_entry validUntil ]}.

(** A module that stands in for the compiled one in the examples: the
    ciphertext is the plaintext, whatever the identity and the key. *)
Definition sample_module : WasmModule :=
  {| wasm_extract_identity := λ _, OK "{}";
     wasm_encrypt := λ _ _ _ buf, OK buf;
     wasm_decrypt := λ ct _, OK ct |}.

Definition loaded_client : Client :=
  {| url := "https://pkg.example";
     params := {| public_key := VStr "pk"; max_age := 300 |};
     module := Some sample_module;
     localStorage := None |}.

(** The buffer that [encode] returns in the reference runtime, for the
    examples ([[]] when it throws). *)
Definition framed (x : jsval) : list byte :=
  match encode x with
  | OK buf => buf
  | Throw _ => []
  end.

(** ** [requestKey]: promises

    A promise is settled at most once: the first call of [resolve] or
    [reject] decides, the later ones do nothing.  The promise that
    [requestKey] returns is the state [None] (pending) or [Some r]
    (settled); its executor chains two callbacks on the promise of
    [fetch], and each callback may settle the outer promise on its way. *)

(** What a callback throws and what a chained promise is rejected with. *)
Inductive thrown : Type :=
  | Thrown (e : error)
  | TypeError.          (* a property read from [undefined] or [null] *)

Inductive settled (A : Type) : Type :=
  | Fulfilled (a : A)
  | RejectedWith (r : thrown).
Arguments Fulfilled {A} a.
Arguments RejectedWith {A} r.

(** The response of the key-request endpoint. *)
Record Response : Type := {
  status : Z;
  body : string;
}.

(** The network: [fetch(url)] is fulfilled with a response or rejected. *)
Record Network : Type := {
  fetch : string → settled Response;
}.

(** The state of the promise that [requestKey] returns. *)
Definition outer_state : Type := option (result jsval).

(** [resolve(v)] and [reject(e)] of the outer promise. *)
Definition settle (r : result jsval) (outer : outer_state) : outer_state :=
  match outer with
  | None => Some r
  | Some _ => outer
  end.

(** [p.then(f)] with no rejection handler: [f] runs on the value of a
    fulfilled [p] and the chained promise takes what [f] returns or
    throws; a rejection of [p] passes through and [f] does not run. *)
Definition then_ {A B} (p : settled A)
    (f : A → outer_state → settled B * outer_state) (outer : outer_state)
  : settled B * outer_state :=
  match p with
  | Fulfilled a => f a outer
  | RejectedWith r => (RejectedWith r, outer)
  end.

Section RequestKey.
Context `{Runtime} (net : Network).

(** [resp.json()]: the body parsed, or a rejection. *)
Definition Response_json (resp : Response) : settled jsval :=
  match JSON_parse (body resp) with
  | OK json => Fulfilled json
  | Throw e => RejectedWith (Thrown e)
  end.

(** The first callback: [resp.status !== 200 ? reject(new Error('not ok'))
    : resp.json()].  [reject] returns [undefined]. *)
Definition on_response (resp : Response) (outer : outer_state)
  : settled jsval * outer_state :=
  if negb (status resp =? 200) then (Fulfilled VUndefined, settle (Throw NotOk) outer)
  else (Response_json resp, outer).

(** [json.status !== 'DONE_VALID'] *)
Definition status_differs (json : jsval) : bool :=
  match get_prop json "status" with
  | VStr s => negb (String.eqb s "DONE_VALID")
  | _ => true
  end.

(** The second callback: [json.status !== 'DONE_VALID' ? reject(new
    Error('not valid')) : resolve(json.key)].  Reading [status] from
    [undefined] or [null] throws. *)
Definition on_json (json : jsval) (outer : outer_state)
  : settled jsval * outer_state :=
  match json with
  | VUndefined | VNull => (RejectedWith TypeError, outer)
  | _ =>
      if status_differs json
      then (Fulfilled VUndefined, settle (Throw NotValid) outer)
      else (Fulfilled VUndefined, settle (OK (get_prop json "key")) outer)
  end.

(** The address [`${url}/v1/request/${token}/${timestamp.toString()}`]. *)
Definition key_request_url (this : Client) (token : jsval) (timestamp : Z) : string :=
  url this +:+ "/v1/request/" +:+ ToString token +:+ "/" +:+ Number_toString timestamp.

(** [requestKey(token, timestamp)]: the state in which the returned
    promise ends. *)
Definition requestKey (this : Client) (token : jsval) (timestamp : Z) : outer_state :=
  let '(p1, outer1) :=
    then_ (fetch net (key_request_url this token timestamp)) on_response None in
  let '(_, outer2) := then_ p1 on_json outer1 in
  outer2.

End RequestKey.

(** A network that answers every request with the given status and body,
    and one that is down. *)
Definition answering (st : Z) (b : string) : Network :=
  {| fetch := λ _, Fulfilled {| status := st; body := b |} |}.

Definition network_down : Network :=
  {| fetch := λ _, RejectedWith (Thrown (Rejected "Failed to fetch")) |}.

(** The body [{"status":"DONE_VALID","key":"usk"}]. *)
Definition key_response_body : string :=
  default "" (JSON_stringify (VObj [("status", VStr "DONE_VALID"); ("key", VStr "usk")])).

(** ** JSON values

    The values that a round trip through [JSON.stringify] and the
    reference [JSON.parse] gives back: no [undefined] anywhere, strings of
    ASCII characters, and in every object the keys once each and in
    property order (array indices ascending, then the others). *)

Definition ascii_only (s : string) : bool :=
  forallb (λ c, (N_of_ascii c <? 128)%N) (list_ascii_of_string s).

Definition index_below (n : N) (k : string) : bool :=
  match Ref.array_index k with
  | Some n' => (n' <? n)%N
  | None => false
  end.

(** [ks] continues the keys [seen] in property order. *)
Fixpoint property_order_from (seen ks : list string) : bool :=
  match ks with
  | [] => true
  | k :: rest =>
      negb (existsb (String.eqb k) seen)
      && match Ref.array_index k with
         | Some n => forallb (index_below n) seen
         | None => true
         end
      && property_order_from (seen ++ [k]) rest
  end.

Fixpoint json_value (v : jsval) : bool :=
  match v with
  | VUndefined => false
  | VNull | VBool _ | VNum _ => true
  | VStr s => ascii_only s
  | VArr elems => forallb json_value elems
  | VObj props =>
      property_order_from [] (props.*1)
      && forallb (λ kv, ascii_only kv.1 && json_value kv.2) props
  end.

(** The text after a value inside a serialization: nothing, or one of
    [,], []] and [}]. *)
Definition terminated (rest : string) : bool :=
  match rest with
  | EmptyString => true
  | String c _ =>
      let n := N_of_ascii c in ((n =? 44) || (n =? 93) || (n =? 125))%N
  end.

(** Induction on values, with the hypothesis for every element of an
    array and every property value of an object. *)
Fixpoint jsval_nested_ind (P : jsval → Prop)
    (Hundefined : P VUndefined) (Hnull : P VNull)
    (Hbool : ∀ b, P (VBool b)) (Hnum : ∀ n, P (VNum n)) (Hstr : ∀ s, P (VStr s))
    (Harr : ∀ elems, Forall P elems → P (VArr elems))
    (Hobj : ∀ props, Forall (λ kv, P kv.2) props → P (VObj props))
    (v : jsval) {struct v} : P v :=
  let rec := jsval_nested_ind P Hundefined Hnull Hbool Hnum Hstr Harr Hobj in
  match v with
  | VUndefined => Hundefined
  | VNull => Hnull
  | VBool b => Hbool b
  | VNum n => Hnum n
  | VStr s => Hstr s
  | VArr elems =>
      Harr elems
        ((fix go (l : list jsval) : Forall P l :=
            match l with
            | [] => Forall_nil P
            | x :: l' => Forall_cons P x l' (rec x) (go l')
            end) elems)
  | VObj props =>
      Hobj props
        ((fix go (l : list (string * jsval)) : Forall (λ kv, P kv.2) l :=
            match l with
            | [] => Forall_nil _
            | kv :: l' => Forall_cons _ kv l' (rec kv.2) (go l')
            end) props)
  end.

(** The first character of a numeral: a digit or the minus sign. *)
Definition number_start (c : ascii) : bool :=
  Ref.is_digit c || (N_of_ascii c =? 45)%N.

(** The serialization of an array element and of an object member. *)
Definition element_text (x : jsval) : string :=
  default "null" (JSON_stringify x).

Definition member_text (kv : string * jsval) : string :=
  QuoteJSONString kv.1 +:+ ":" +:+ element_text kv.2.

(** The statement of reading back, for one value: its serialization,
    followed by the end of a value, is parsed as the value, with fuel
    above its length. *)
Definition reads_back (x : jsval) : Prop :=
  json_value x = true →
  ∀ fuel rest,
    (String.length (element_text x) < fuel)%nat →
    terminated rest = true →
    Ref.parse_value fuel (element_text x +:+ rest) = Some (x, rest).

(** The value that [JSON.stringify] writes down for a value: an
    [undefined] element of an array is written [null], a property whose
    value is [undefined] is left out. *)
Fixpoint json_image (v : jsval) : jsval :=
  match v with
  | VArr elems =>
      VArr (map (λ x, match x with
                      | VUndefined => VNull
                      | _ => json_image x
                      end) elems)
  | VObj props =>
      VObj (omap (λ kv, match kv.2 with
                        | VUndefined => None
                        | _ => Some (kv.1, json_image kv.2)
                        end) props)
  | _ => v
  end.

Definition sparse_object : jsval :=
  VObj [("draft", VUndefined); ("to", VArr [VStr "bob"; VUndefined]); ("n", VNum 7)].
(** * Properties *)

(** ** The 32-bit operators on the operands the codec gives them *)

Lemma ToInt32_id z : - 2147483648 ≤ z < 2147483648 → Int32.ToInt32 z = z.
Proof.
  intros Hz. unfold Int32.ToInt32.
  change (2 ^ 31) with 2147483648. change (2 ^ 32) with 4294967296.
  rewrite Z.mod_small by lia. lia.
Qed.

Lemma shr_spec a b :
  0 ≤ a < 2147483648 → 0 ≤ b < 32 → Int32.shr a b = a / 2 ^ b.
Proof.
  intros Ha Hb. unfold Int32.shr.
  rewrite ToInt32_id by lia.
  rewrite (Z.mod_small b) by lia.
  apply Z.shiftr_div_pow2. lia.
Qed.

Lemma shl_spec a b :
  0 ≤ a → 0 ≤ b < 32 → a * 2 ^ b < 2147483648 → Int32.shl a b = a * 2 ^ b.
Proof.
  intros Ha Hb Hab. unfold Int32.shl.
  assert (0 < 2 ^ b) by (apply Z.pow_pos_nonneg; lia).
  rewrite (ToInt32_id a) by nia.
  rewrite (Z.mod_small b) by lia.
  rewrite Z.shiftl_mul_pow2 by lia.
  apply ToInt32_id. nia.
Qed.

Lemma and_255_spec a : 0 ≤ a < 2147483648 → Int32.and a 255 = a mod 256.
Proof.
  intros Ha. unfold Int32.and.
  rewrite (ToInt32_id a), (ToInt32_id 255) by lia.
  change 255 with (Z.ones 8). rewrite Z.land_ones by lia.
  change (2 ^ 8) with 256.
  apply ToInt32_id.
  pose proof (Z.mod_pos_bound a 256). lia.
Qed.

Lemma lor_bytes hi lo :
  0 ≤ hi → 0 ≤ lo < 256 → Z.lor (hi * 256) lo = hi * 256 + lo.
Proof.
  intros Hhi Hlo.
  rewrite <- Z.lxor_lor, <- Z.add_nocarry_lxor; try lia.
  all: change 256 with (2 ^ 8); rewrite <- Z.shiftl_mul_pow2 by lia.
  all: apply Z.bits_inj'; intros n Hn; rewrite Z.land_spec, Z.bits_0.
  all: destruct (Z.lt_ge_cases n 8).
  all: try (rewrite Z.shiftl_spec_low by lia; reflexivity).
  all: rewrite (Z.bits_above_log2 lo n), andb_false_r; try reflexivity; try lia.
  all: destruct (Z.eq_dec lo 0) as [->|]; [simpl; lia|].
  all: apply Z.lt_le_trans with 8; [apply Z.log2_lt_pow2; lia | lia].
Qed.

Lemma or_bytes_spec hi lo :
  0 ≤ hi < 256 → 0 ≤ lo < 256 →
  Int32.or (Int32.shl hi 8) lo = hi * 256 + lo.
Proof.
  intros Hhi Hlo.
  rewrite shl_spec by lia. change (2 ^ 8) with 256.
  unfold Int32.or.
  rewrite (ToInt32_id (hi * 256)), (ToInt32_id lo) by lia.
  rewrite lor_bytes by lia.
  apply ToInt32_id. lia.
Qed.

(** ** The padded length *)

Lemma paddedLength_spec l :
  0 ≤ l < 2147482624 → paddedLength l = 512 * ((l + 1) / 512 + 1).
Proof.
  intros Hl. unfold paddedLength, paddingBits.
  pose proof (Z.div_pos (l + 1) 512).
  pose proof (Z.mul_div_le (l + 1) 512).
  rewrite shr_spec by lia. change (2 ^ 9) with 512.
  rewrite shl_spec; change (2 ^ 9) with 512; lia.
Qed.

Lemma paddedLength_bounds l :
  0 ≤ l < 2147482624 →
  paddedLength l mod 512 = 0 ∧ l + 1 < paddedLength l ≤ l + 1 + 512.
Proof.
  intros Hl. rewrite paddedLength_spec by done.
  pose proof (Z.mul_div_le (l + 1) 512).
  pose proof (Z.mul_succ_div_gt (l + 1) 512).
  split; [|lia].
  rewrite Z.mul_comm. apply Z.mod_mul. lia.
Qed.

(** C4.  For every serialized length [0 <= len < 65534], the padded length
    [(((len + 1) >> 9) + 1) << 9] is a positive multiple of 512, is
    strictly greater than [len + 1], and no multiple of 512 strictly
    greater than [len + 1] is smaller. *)
Theorem paddedLength_least_multiple (len : Z) :
  0 ≤ len < 65534 →
  0 < paddedLength len ∧
  paddedLength len mod 512 = 0 ∧
  len + 1 < paddedLength len ∧
  (∀ m, m mod 512 = 0 → len + 1 < m → paddedLength len ≤ m).
Proof.
  intros Hlen.
  destruct (paddedLength_bounds len) as [Hmod Hgt]; [lia|].
  repeat split; [lia | done | lia |].
  intros m Hm Hlt.
  apply Z.mod_divide in Hmod as [p Hp]; [|lia].
  apply Z.mod_divide in Hm as [q Hq]; [|lia].
  nia.
Qed.

Lemma paddedLength_least_multiple_witness :
  0 ≤ 510 < 65534 ∧ paddedLength 510 = 512 ∧
  (0 < paddedLength 510 ∧
   paddedLength 510 mod 512 = 0 ∧
   510 + 1 < paddedLength 510 ∧
   (∀ m, m mod 512 = 0 → 510 + 1 < m → paddedLength 510 ≤ m)).
Proof.
  split; [lia|]. split; [reflexivity|].
  apply (paddedLength_least_multiple 510). lia.
Defined.

(** ** Bytes *)

Lemma to_Z_ToUint8 z : Uint8Array.to_Z (Uint8Array.ToUint8 z) = z mod 256.
Proof.
  unfold Uint8Array.to_Z, Uint8Array.ToUint8.
  pose proof (Z.mod_pos_bound z 256 eq_refl) as Hb.
  destruct (Byte.of_N (Z.to_N (z mod 256))) as [b|] eqn:E; simpl.
  - apply Byte.to_of_N in E. rewrite E. lia.
  - apply Byte.of_N_None_iff in E. lia.
Qed.

Lemma to_Z_bounds b : 0 ≤ Uint8Array.to_Z b < 256.
Proof.
  unfold Uint8Array.to_Z. pose proof (Byte.to_N_bounded b). lia.
Qed.

Lemma length_prefix_bounds buf : 0 ≤ length_prefix buf < 65536.
Proof.
  unfold length_prefix, Uint8Array.get.
  assert (∀ o : option byte,
    0 ≤ match o with Some b => Uint8Array.to_Z b | None => 0 end < 256) as Hb.
  { intros [b|]; [apply to_Z_bounds | lia]. }
  pose proof (Hb (buf !! 0%nat)). pose proof (Hb (buf !! 1%nat)).
  rewrite or_bytes_spec by done. lia.
Qed.

(** The two prefix bytes written by [encode] read back as the length. *)
Lemma length_prefix_written l rest :
  0 ≤ l < 65536 →
  length_prefix (Uint8Array.ToUint8 (Int32.shr l 8)
                   :: Uint8Array.ToUint8 (Int32.and l 255) :: rest) = l.
Proof.
  intros Hl. unfold length_prefix, Uint8Array.get. cbn [lookup list_lookup].
  rewrite !to_Z_ToUint8.
  rewrite shr_spec, and_255_spec by lia. change (2 ^ 8) with 256.
  pose proof (Z.mod_pos_bound l 256 eq_refl).
  pose proof (Z.div_pos l 256).
  assert (l / 256 < 256) by (apply Z.div_lt_upper_bound; lia).
  rewrite (Z.mod_small (l / 256)), (Z.mod_small (l mod 256)) by lia.
  rewrite or_bytes_spec by lia.
  pose proof (Z.div_mod l 256). lia.
Qed.

Section CodecFacts.
Context `{Runtime}.

(** What [encode] returns below the size limit: the two length bytes,
    the serialized bytes, and zeros up to the padded length. *)
Lemma encode_below_limit x :
  byteLength x < 65534 →
  encode x =
    OK (Uint8Array.ToUint8 (Int32.shr (byteLength x) 8)
          :: Uint8Array.ToUint8 (Int32.and (byteLength x) 255)
          :: objectBytes x
          ++ replicate (Z.to_nat (paddedLength (byteLength x) - 2 - byteLength x))
               "000"%byte).
Proof.
  intros Hlt. unfold encode. fold (byteLength x).
  set (l := byteLength x) in *.
  assert (0 ≤ l) as Hl0 by (unfold l, byteLength; lia).
  destruct (paddedLength_bounds l) as [_ Hp]; [lia|].
  destruct (Z.leb_spec (65536 - 2) l); [lia|].
  unfold Uint8Array.alloc.
  destruct (Z.ltb_spec (paddedLength l) 0); [lia|].
  change (OK ?b ≫= ?k) with (k b). cbv beta.
  replace (Z.to_nat (paddedLength l))
    with (S (S (length (objectBytes x)
                + Z.to_nat (paddedLength l - 2 - l))))
    by (unfold l, byteLength in *; lia).
  rewrite !replicate_S, replicate_add. unfold Uint8Array.put.
  cbn [insert list_insert]. unfold Uint8Array.set_at.
  rewrite decide_False
    by (cbn [length]; rewrite length_app, !length_replicate; lia).
  cbn [take drop app length Nat.add]. rewrite take_0. cbn [app].
  do 3 f_equal.
  replace (length (objectBytes x)) with
    (length (replicate (length (objectBytes x)) "000"%byte)) at 1
    by apply length_replicate.
  rewrite drop_app_length. done.
Qed.

(** [decode] on a buffer made of two length bytes that spell the length
    of [payload], then [payload], then anything. *)
Lemma decode_framed hi lo payload padding :
  length_prefix (hi :: lo :: payload ++ padding) = Z.of_nat (length payload) →
  decode (hi :: lo :: payload ++ padding)
  = JSON_parse (TextDecoder_decode payload).
Proof.
  intros Hlen. unfold decode. rewrite Hlen.
  unfold Uint8Array.slice. cbn [length]. rewrite length_app.
  rewrite Z.min_l, Z.min_l by lia.
  rewrite Z.max_l by lia.
  replace (Z.to_nat (2 + Z.of_nat (length payload) - 2)) with (length payload) by lia.
  change (Z.to_nat 2) with 2%nat. cbn [skipn]. rewrite drop_0.
  rewrite take_app_length. done.
Qed.

End CodecFacts.

Section CodecSlices.
Context `{Runtime}.

(** [buf.slice(2, 2 + n)] never reads past the end: it is the first [n]
    of the bytes from offset 2, as many as there are. *)
Lemma slice_take_drop (buf : list byte) n :
  0 ≤ n → Uint8Array.slice buf 2 (2 + n) = take (Z.to_nat n) (drop 2 buf).
Proof.
  intros Hn. unfold Uint8Array.slice.
  destruct (Z.le_gt_cases 2 (Z.of_nat (length buf))) as [Hlen|Hlen].
  - rewrite (Z.min_l 2) by lia. change (Z.to_nat 2) with 2%nat.
    destruct (Z.le_gt_cases (2 + n) (Z.of_nat (length buf))).
    + rewrite Z.min_l, Z.max_l by lia. f_equal. lia.
    + rewrite Z.min_r, Z.max_l by lia.
      rewrite !take_ge; [done | rewrite length_drop; lia ..].
  - rewrite (drop_ge buf 2) by lia. rewrite take_nil.
    rewrite (Z.min_r 2) by lia. rewrite drop_ge by lia. apply take_nil.
Qed.

Lemma decode_unfold buf :
  decode buf =
  JSON_parse (TextDecoder_decode
                (take (Z.to_nat (length_prefix buf)) (drop 2 buf))).
Proof.
  unfold decode. rewrite slice_take_drop; [done|].
  apply length_prefix_bounds.
Qed.

Lemma length_prefix_take buf n :
  (2 ≤ n)%nat → length_prefix (take n buf) = length_prefix buf.
Proof.
  intros Hn. unfold length_prefix, Uint8Array.get.
  rewrite !lookup_take_lt by lia. done.
Qed.

(** Composition of the two framings, whatever the serialization is. *)
Lemma decode_encode_parse x :
  byteLength x < 65534 →
  encode x ≫= decode = JSON_parse (TextDecoder_decode (objectBytes x)).
Proof.
  intros Hlt. rewrite encode_below_limit by done.
  change (OK ?b ≫= ?k) with (k b).
  apply decode_framed, length_prefix_written.
  unfold byteLength in *. lia.
Qed.

End CodecSlices.

(** ** The payload codec *)



(** C5.  Size boundary: [encode] throws 'Too large to encrypt' exactly
    when the serialized form has 65534 bytes or more; below that it
    throws nothing, the length fits 16 bits, and bytes 0 and 1 of the
    buffer hold it big-endian. *)
Theorem encode_size_boundary `{Runtime} (x : jsval) :
  (encode x = Throw TooLarge ↔ 65534 ≤ byteLength x) ∧
  (byteLength x < 65534 →
   ∃ buf, encode x = OK buf ∧
          0 ≤ byteLength x < 65536 ∧
          Uint8Array.get buf 0 = byteLength x / 256 ∧
          Uint8Array.get buf 1 = byteLength x mod 256 ∧
          length_prefix buf = byteLength x).
Proof.
  assert (0 ≤ byteLength x) as H0 by (unfold byteLength; lia).
  split.
  - split.
    + intros Hthrow.
      destruct (Z.le_gt_cases 65534 (byteLength x)) as [|Hlt]; [done|].
      rewrite encode_below_limit in Hthrow by done. discriminate.
    + intros Hge. unfold encode. fold (byteLength x).
      destruct (Z.leb_spec (65536 - 2) (byteLength x)); [done | lia].
  - intros Hlt. eexists. split; [apply encode_below_limit; done|].
    split; [lia|].
    pose proof (Z.mod_pos_bound (byteLength x) 256 eq_refl).
    pose proof (Z.div_pos (byteLength x) 256).
    assert (byteLength x / 256 < 256) by (apply Z.div_lt_upper_bound; lia).
    split; [|split; [|apply length_prefix_written; lia]].
    + unfold Uint8Array.get. cbn [lookup list_lookup].
      rewrite to_Z_ToUint8, shr_spec by lia. change (2 ^ 8) with 256.
      apply Z.mod_small. lia.
    + unfold Uint8Array.get. cbn [lookup list_lookup].
      rewrite to_Z_ToUint8, and_255_spec by lia.
      apply Z.mod_small. lia.
Qed.

Lemma encode_size_boundary_witness :
  byteLength (letters 65532) = 65534 ∧
  encode (letters 65532) = Throw TooLarge ∧
  byteLength (letters 65531) = 65533 ∧
  ∃ buf, encode (letters 65531) = OK buf ∧
         Uint8Array.get buf 0 = 255 ∧ Uint8Array.get buf 1 = 253.
Proof.
  assert (byteLength (letters 65532) = 65534) as Hbig by (vm_compute; reflexivity).
  assert (byteLength (letters 65531) = 65533) as Hsmall by (vm_compute; reflexivity).
  destruct (encode_size_boundary (letters 65532)) as [[_ Hthrow] _].
  destruct (encode_size_boundary (letters 65531)) as [_ Hok].
  split; [exact Hbig|]. split; [apply Hthrow; rewrite Hbig; lia|].
  split; [exact Hsmall|].
  destruct Hok as (buf & Hbuf & _ & Hb0 & Hb1 & _); [rewrite Hsmall; lia|].
  exists buf. rewrite Hsmall in Hb0, Hb1. auto.
Defined.

(** C7, as the code has it.  For every value whose serialization has
    [len < 65534] bytes, the buffer length is a multiple of 512 and at
    least [len + 2]: the two length bytes and the payload always fit.
    Nothing is left over exactly when [len mod 512 = 510]. *)
Theorem encode_length `{Runtime} (x : jsval) :
  byteLength x < 65534 →
  ∃ buf, encode x = OK buf ∧
         Z.of_nat (length buf) = paddedLength (byteLength x) ∧
         Z.of_nat (length buf) mod 512 = 0 ∧
         byteLength x + 2 ≤ Z.of_nat (length buf) ∧
         (Z.of_nat (length buf) = byteLength x + 2 ↔ byteLength x mod 512 = 510).
Proof.
  intros Hlt.
  assert (0 ≤ byteLength x) as H0 by (unfold byteLength; lia).
  destruct (paddedLength_bounds (byteLength x)) as [Hmod Hb]; [lia|].
  eexists. split; [apply encode_below_limit; done|].
  assert (Z.of_nat (length
            (Uint8Array.ToUint8 (Int32.shr (byteLength x) 8)
             :: Uint8Array.ToUint8 (Int32.and (byteLength x) 255)
             :: objectBytes x ++
                replicate (Z.to_nat (paddedLength (byteLength x) - 2 - byteLength x))
                  "000"%byte))
          = paddedLength (byteLength x)) as ->.
  { cbn [length]. rewrite length_app, length_replicate.
    unfold byteLength in *. lia. }
  split; [done|]. split; [done|]. split; [lia|].
  rewrite paddedLength_spec in * by lia.
  pose proof (Z.div_mod (byteLength x + 1) 512).
  pose proof (Z.mod_pos_bound (byteLength x + 1) 512).
  pose proof (Z.div_mod (byteLength x) 512).
  pose proof (Z.mod_pos_bound (byteLength x) 512).
  split; intros Heq.
  - assert ((byteLength x + 1) mod 512 = 511) as Hr by lia.
    rewrite <- (Z.mod_small 510 512) by lia.
    assert (byteLength x = 510 + ((byteLength x + 1) / 512) * 512) as -> by lia.
    rewrite Z.mod_add by lia. done.
  - assert (byteLength x + 1 = 511 + (byteLength x / 512) * 512) as Hx by lia.
    rewrite Hx at 1. rewrite Z.div_add by lia.
    change (511 / 512) with 0. lia.
Qed.

Lemma encode_length_witness :
  byteLength (letters 3) < 65534 ∧
  ∃ buf, encode (letters 3) = OK buf ∧ Z.of_nat (length buf) = 512.
Proof.
  assert (byteLength (letters 3) < 65534) as Hlt by (vm_compute; reflexivity).
  split; [exact Hlt|].
  destruct (encode_length (letters 3) Hlt) as (buf & Hbuf & Hlen & _).
  exists buf. split; [exact Hbuf|]. rewrite Hlen. vm_compute. reflexivity.
Defined.

(** C7 as stated fails: a serialization of 510 bytes fills a buffer of
    512 bytes, which is less than [510 + 2 + 1]. *)
Lemma encode_slack_counterexample :
  byteLength (letters 508) = 510 ∧
  ∃ buf, encode (letters 508) = OK buf ∧
         Z.of_nat (length buf) = 512 ∧
         ¬ (byteLength (letters 508) + 2 + 1 ≤ Z.of_nat (length buf)).
Proof.
  split; [vm_compute; reflexivity|].
  eexists. split; [vm_compute; reflexivity|].
  split; [vm_compute; reflexivity|].
  vm_compute. intros Hle. apply Hle. reflexivity.
Qed.

(** C8, as the code has it.  [decode] checks no length: it parses the
    text decoded from the bytes at offsets [2, 2 + len) that the buffer
    has, and throws exactly what [JSON.parse] throws on that text.  When
    [len + 2] exceeds the buffer length, the text is decoded from all the
    bytes from offset 2 on. *)
Theorem decode_no_length_check `{Runtime} (buf : list byte) :
  decode buf =
    JSON_parse (TextDecoder_decode
                  (take (Z.to_nat (length_prefix buf)) (drop 2 buf))) ∧
  (Z.of_nat (length buf) < length_prefix buf + 2 →
   decode buf = JSON_parse (TextDecoder_decode (drop 2 buf))).
Proof.
  split; [apply decode_unfold|].
  intros Hshort. rewrite decode_unfold.
  rewrite take_ge; [done|]. rewrite length_drop. lia.
Qed.

Lemma decode_no_length_check_witness :
  let buf := [ "000"; "005"; "049" ]%byte in
  Z.of_nat (length buf) < length_prefix buf + 2 ∧
  decode buf = JSON_parse (TextDecoder_decode (drop 2 buf)).
Proof.
  intros buf.
  assert (Z.of_nat (length buf) < length_prefix buf + 2) as Hshort
    by (vm_compute; reflexivity).
  split; [exact Hshort|].
  exact (proj2 (decode_no_length_check buf) Hshort).
Defined.

(** C8 as stated fails: the buffer [00 05 31] announces 5 payload bytes
    and holds 1, and [decode] returns the number 1. *)
Lemma decode_short_buffer_counterexample :
  let buf := [ "000"; "005"; "049" ]%byte in
  length_prefix buf = 5 ∧
  Z.of_nat (length buf) < length_prefix buf + 2 ∧
  decode buf = OK (VNum 1).
Proof.
  vm_compute. repeat split; reflexivity.
Qed.

(** C10.  Two buffers of the same length that agree on the bytes at
    offsets [0, 2 + len), where [len] is the length prefix of the first
    and [len + 2] is within the buffer, decode to the same result. *)
Theorem decode_ignores_padding `{Runtime} (buf1 buf2 : list byte) :
  length buf1 = length buf2 →
  length_prefix buf1 + 2 ≤ Z.of_nat (length buf1) →
  take (Z.to_nat (2 + length_prefix buf1)) buf1
    = take (Z.to_nat (2 + length_prefix buf1)) buf2 →
  decode buf1 = decode buf2.
Proof.
  intros _ _ Hagree.
  pose proof (length_prefix_bounds buf1) as Hb.
  assert (length_prefix buf2 = length_prefix buf1) as Hlen.
  { rewrite <- (length_prefix_take buf2 (Z.to_nat (2 + length_prefix buf1))) by lia.
    rewrite <- Hagree. apply length_prefix_take. lia. }
  rewrite !decode_unfold, Hlen.
  rewrite !take_drop_commute.
  replace (2 + Z.to_nat (length_prefix buf1))%nat
    with (Z.to_nat (2 + length_prefix buf1)) by lia.
  rewrite Hagree. done.
Qed.

Lemma decode_ignores_padding_witness :
  let buf1 := [ "000"; "001"; "055"; "000"; "000" ]%byte in
  let buf2 := [ "000"; "001"; "055"; "255"; "093" ]%byte in
  decode buf1 = decode buf2 ∧ decode buf1 = OK (VNum 7).
Proof.
  intros buf1 buf2. split; [|vm_compute; reflexivity].
  apply (decode_ignores_padding buf1 buf2).
  - reflexivity.
  - vm_compute. discriminate.
  - vm_compute. reflexivity.
Defined.

(** ** The token cache *)

Section TokenCacheFacts.
Context `{Runtime} (env : Environment).

Lemma world_eta w : {| this := this w; ticks := ticks w; trace := trace w |} = w.
Proof. by destruct w. Qed.

Lemma advance_0 w : advance 0 w = w.
Proof. destruct w. unfold advance. simpl. f_equal. lia. Qed.

(** The test of the entry: its verdict, and whether it read the clock. *)
Lemma stale_spec cached w :
  stale env cached w =
    (OK (negb (valid_entry (clock env (ticks w)) cached)),
     advance (if reads_clock cached then 1 else 0) w).
Proof.
  unfold stale, valid_entry, reads_clock.
  destruct (truthy cached); simpl; [|by rewrite advance_0].
  destruct (length (Object_keys cached) =? 0)%nat; simpl; [by rewrite advance_0|].
  destruct (truthy (get_prop cached "validUntil")); simpl; [|by rewrite advance_0].
  unfold mbind, M_bind, Date_now, mret, M_ret, advance. simpl.
  rewrite negb_involutive. do 2 f_equal. lia.
Qed.

Lemma get_prop_singleton key v : get_prop (VObj [(key, v)]) key = v.
Proof. simpl. by rewrite String.eqb_refl. Qed.

(** What the store answers is the entry, or [undefined]. *)
Lemma localStorage_get_entry attribute w :
  localStorage_get (serializedAttr attribute) w =
    (OK (VObj match storage w !! serializedAttr attribute with
              | Some v => [(serializedAttr attribute, v)]
              | None => []
              end),
     log (EvGet (serializedAttr attribute)) w)
  ∧ get_prop (VObj match storage w !! serializedAttr attribute with
                   | Some v => [(serializedAttr attribute, v)]
                   | None => []
                   end) (serializedAttr attribute)
    = cached_entry w attribute.
Proof.
  split; [done|]. unfold cached_entry.
  destruct (storage w !! serializedAttr attribute); [apply get_prop_singleton | done].
Qed.

(** Adding to the seconds field moves the time value by as many
    seconds, whatever the zone offset. *)
Lemma Date_setSeconds_getSeconds t a :
  Date_setSeconds t (Date_getSeconds t + a) = t + 1000 * a.
Proof.
  unfold Date_setSeconds, Date_getSeconds.
  set (local := t + LocalTZA).
  assert (local mod 60000 = 1000 * ((local / 1000) mod 60) + local mod 1000) as Hsplit.
  { change 60000 with (1000 * 60). rewrite Z.rem_mul_r by lia. lia. }
  lia.
Qed.

End TokenCacheFacts.

Section RequestToken.
Context `{Runtime} (env : Environment).

Lemma requestToken_no_store attribute w :
  localStorage (this w) = None →
  requestToken env attribute w = _requestToken env attribute w.
Proof. intros Hnone. unfold requestToken. by rewrite Hnone. Qed.

Lemma requestToken_hit attribute w st :
  localStorage (this w) = Some st →
  valid_entry (clock env (ticks w)) (cached_entry w attribute) = true →
  requestToken env attribute w =
    (OK (get_prop (cached_entry w attribute) "token"), tested attribute w).
Proof.
  intros Hst Hvalid. unfold requestToken. rewrite Hst.
  destruct (localStorage_get_entry attribute w) as [Hget Hentry].
  unfold mbind at 1. unfold M_bind at 1. rewrite Hget, Hentry.
  unfold mbind at 1. unfold M_bind at 1. rewrite stale_spec.
  change (ticks (log _ w)) with (ticks w). rewrite Hvalid. done.
Qed.

Lemma requestToken_miss attribute w st :
  localStorage (this w) = Some st →
  valid_entry (clock env (ticks w)) (cached_entry w attribute) = false →
  requestToken env attribute w =
    let w2 := log (EvPopup (url (this w)) (request_body attribute))
                (tested attribute w) in
    match irmaFrontend_start env (url (this w)) (request_body attribute) with
    | Throw e => (Throw e, w2)
    | OK map =>
        let token := get_prop map "sessionToken" in
        let entries : gmap string jsval :=
          {[ serializedAttr attribute :=
               fresh_entry token (clock env (ticks w2)) (max_age (params (this w))) ]} in
        (OK token,
         log (EvSet entries)
           {| this := with_storage (this w) (entries ∪ st);
              ticks := S (ticks w2); trace := trace w2 |})
    end.
Proof.
  intros Hst Hvalid. unfold requestToken. rewrite Hst.
  destruct (localStorage_get_entry attribute w) as [Hget Hentry].
  unfold mbind at 1. unfold M_bind at 1. rewrite Hget, Hentry.
  unfold mbind at 1. unfold M_bind at 1. rewrite stale_spec.
  change (ticks (log _ w)) with (ticks w). rewrite Hvalid.
  fold (tested attribute w). cbn [negb]. cbv zeta.
  unfold mbind at 1. unfold M_bind at 1. unfold _requestToken at 1.
  fold (request_body attribute). cbv beta zeta.
  change (url (this (tested attribute w))) with (url (this w)).
  destruct (irmaFrontend_start env (url (this w)) (request_body attribute))
    as [map|e]; [|done].
  unfold mbind, M_bind, Date_now, localStorage_set, mret, M_ret.
  rewrite Date_setSeconds_getSeconds.
  unfold tested, advance, storage, log. cbn [this ticks trace].
  rewrite Hst. done.
Qed.

End RequestToken.

Lemma popups_log_other e w :
  match e with EvPopup _ _ => False | _ => True end →
  popups (log e w) = popups w.
Proof. unfold popups, log. cbn [trace]. by destruct e. Qed.

Lemma writes_log_other e w :
  match e with EvSet _ => False | _ => True end →
  writes (log e w) = writes w.
Proof. unfold writes, log. cbn [trace]. by destruct e. Qed.

Lemma tested_unchanged attribute w :
  this (tested attribute w) = this w ∧
  popups (tested attribute w) = popups w ∧
  writes (tested attribute w) = writes w ∧
  storage (tested attribute w) = storage w ∧
  trace (tested attribute w) = EvGet (serializedAttr attribute) :: trace w.
Proof. done. Qed.

(** C2, as the code has it.  With a store configured, the entry read
    under the serialized attribute is served exactly when it is truthy,
    has at least one own key, and its [validUntil] is falsy (absent,
    [undefined], [null], [0], [""], [false]) or [now >= validUntil] is
    false, which for a number other than 0 means [now < validUntil].  A
    served entry gives [cached.token] with no popup session and no write;
    any other entry leads to a popup session. *)
Theorem requestToken_cache_hit `{Runtime} (env : Environment)
    (attribute : Attribute) (w : World) (st : gmap string jsval) :
  localStorage (this w) = Some st →
  let cached := cached_entry w attribute in
  let now := clock env (ticks w) in
  (valid_entry now cached = true ↔
     truthy cached = true ∧ Object_keys cached ≠ [] ∧
     (truthy (get_prop cached "validUntil") = false ∨
      ge now (get_prop cached "validUntil") = false)) ∧
  (∀ n, ge now (VNum n) = false ↔ now < n) ∧
  (valid_entry now cached = true →
   ∃ w', requestToken env attribute w = (OK (get_prop cached "token"), w') ∧
         popups w' = popups w ∧ writes w' = writes w ∧ storage w' = storage w) ∧
  (valid_entry now cached = false →
   popups (requestToken env attribute w).2
   = (url (this w), request_body attribute) :: popups w).
Proof.
  intros Hst cached now. split; [|split; [|split]].
  - unfold valid_entry.
    destruct (truthy cached), (Object_keys cached) as [|k ks],
      (truthy (get_prop cached "validUntil")),
      (ge now (get_prop cached "validUntil"));
      cbn [length Nat.eqb negb andb orb]; intuition congruence.
  - intros n. unfold ge. rewrite Z.leb_gt. lia.
  - intros Hvalid. eexists. split; [by eapply requestToken_hit|].
    by destruct (tested_unchanged attribute w) as (_ & ? & ? & ? & _).
  - intros Hvalid. rewrite (requestToken_miss env attribute w st) by done.
    cbv zeta.
    destruct (irmaFrontend_start env (url (this w)) (request_body attribute)); done.
Qed.

Lemma requestToken_cache_hit_witness :
  let w := sample_world (Some (sample_store 1700000000124)) in
  valid_entry (clock sample_env (ticks w)) (cached_entry w sample_attribute) = true ∧
  ∃ w', requestToken sample_env sample_attribute w = (OK (VStr "T"), w') ∧
        popups w' = popups w ∧ writes w' = writes w ∧ storage w' = storage w.
Proof.
  intros w.
  assert (valid_entry (clock sample_env (ticks w)) (cached_entry w sample_attribute)
          = true) as Hvalid by (vm_compute; reflexivity).
  split; [exact Hvalid|].
  destruct (requestToken_cache_hit sample_env sample_attribute w
              (sample_store 1700000000124) eq_refl) as (_ & _ & Hhit & _).
  destruct (Hhit Hvalid) as (w' & Hreq & Hrest).
  exists w'. split; [|exact Hrest].
  rewrite Hreq. reflexivity.
Defined.

(** C2 as stated fails: an entry whose [validUntil] is 0 has that field,
    and the time is not before 0, yet the entry is served from the cache
    and no popup session is run. *)
Lemma requestToken_cache_hit_counterexample :
  let w := sample_world (Some (sample_store 0)) in
  cached_entry w sample_attribute = sample_entry 0 ∧
  ¬ valid_as_specified (clock sample_env (ticks w)) (sample_entry 0) ∧
  (requestToken sample_env sample_attribute w).1 = OK (VStr "T") ∧
  popups (requestToken sample_env sample_attribute w).2 = [].
Proof.
  intros w. split; [vm_compute; reflexivity|].
  split; [|split; vm_compute; reflexivity].
  intros (_ & _ & [Hno | (n & Hn & Hlt)]).
  - apply Hno. cbn. set_solver.
  - cbn in Hn. injection Hn as <-. vm_compute in Hlt. discriminate.
Qed.



(** C9.  With a store configured and an entry that is not served, a
    session that fails makes [requestToken] fail with the same error, and
    nothing is written: the store is as it was. *)
Theorem requestToken_failure_writes_nothing `{Runtime} (env : Environment)
    (attribute : Attribute) (w : World) (st : gmap string jsval) (e : error) :
  localStorage (this w) = Some st →
  valid_entry (clock env (ticks w)) (cached_entry w attribute) = false →
  irmaFrontend_start env (url (this w)) (request_body attribute) = Throw e →
  ∃ w',
    requestToken env attribute w = (Throw e, w') ∧
    writes w' = writes w ∧
    this w' = this w ∧
    storage w' = st.
Proof.
  intros Hst Hvalid Hfail.
  rewrite (requestToken_miss env attribute w st) by done.
  cbv zeta. rewrite Hfail. eexists. split; [reflexivity|].
  destruct (tested_unchanged attribute w) as (Hthis & _ & Hw & Hs & _).
  split; [exact Hw|]. split; [exact Hthis|].
  unfold storage, log. cbn [this]. rewrite Hthis, Hst. done.
Qed.

Lemma requestToken_failure_writes_nothing_witness :
  let w := sample_world (Some (sample_store 1700000000123)) in
  ∃ w',
    requestToken failing_env sample_attribute w = (Throw (Rejected "Aborted"), w') ∧
    writes w' = [] ∧
    storage w' = sample_store 1700000000123.
Proof.
  intros w.
  destruct (requestToken_failure_writes_nothing failing_env sample_attribute w
              (sample_store 1700000000123) (Rejected "Aborted"))
    as (w' & Hreq & Hw & _ & Hs).
  - reflexivity.
  - vm_compute. reflexivity.
  - reflexivity.
  - exists w'. auto.
Defined.

(** ** The cache key *)

(** Objects with the same keys in the same order, none twice, and the same
    value under every key are the same list of properties. *)
Lemma props_eq_of_lookups (a1 a2 : list (string * jsval)) :
  NoDup a1.*1 → a1.*1 = a2.*1 →
  (∀ k, assoc k a1 = assoc k a2) → a1 = a2.
Proof.
  revert a2. induction a1 as [|[k v] a1 IH]; intros [|[k' v'] a2] Hnd Hkeys Hval;
    try done.
  cbn in Hkeys. injection Hkeys as <- Hkeys.
  cbn in Hnd. inversion Hnd as [|? ? Hk Hnd']; subst.
  pose proof (Hval k) as Hv. cbn in Hv. rewrite String.eqb_refl in Hv.
  injection Hv as <-. f_equal.
  apply IH; [exact Hnd' | done |].
  intros k0. specialize (Hval k0). cbn in Hval.
  destruct (String.eqb_spec k0 k) as [Heq|Hne]; [subst k0|done].
  assert (∀ a : list (string * jsval), k ∉ a.*1 → assoc k a = None) as Hnone.
  { clear. induction a as [|[k1 v1] a IHa]; [done|].
    cbn. intros Hnot. apply not_elem_of_cons in Hnot as [Hne Hnot].
    destruct (String.eqb_spec k k1); [done | by apply IHa]. }
  rewrite !Hnone; [done | by rewrite <- Hkeys | done].
Qed.

(** C6, as the code has it.  The cache key is [JSON.stringify] of the
    attribute, which writes the properties in property order: attributes
    with the same keys in the same order and the same value under each key
    have the same cache key, and an attribute with [type] before [value]
    and one with [value] before [type], both serialized, have different
    cache keys. *)
Theorem cache_key_follows_property_order :
  (∀ a1 a2 : Attribute,
     NoDup a1.*1 → a1.*1 = a2.*1 →
     (∀ k, assoc k a1 = assoc k a2) →
     serializedAttr a1 = serializedAttr a2) ∧
  (∀ t v : jsval,
     is_Some (JSON_stringify t) → is_Some (JSON_stringify v) →
     serializedAttr [("type", t); ("value", v)]
     ≠ serializedAttr [("value", v); ("type", t)]).
Proof.
  split.
  - intros a1 a2 Hnd Hkeys Hval. by rewrite (props_eq_of_lookups a1 a2).
  - intros t v [st Ht] [sv Hv]. unfold serializedAttr.
    cbn [JSON_stringify omap list_omap fst snd]. rewrite Ht, Hv.
    cbn. discriminate.
Qed.

Lemma cache_key_follows_property_order_witness :
  serializedAttr sample_attribute = serializedAttr sample_attribute ∧
  serializedAttr sample_attribute ≠ serializedAttr sample_attribute_swapped.
Proof.
  destruct cache_key_follows_property_order as [Hsame Hdiff].
  split.
  - apply Hsame; [|done..].
    apply (bool_decide_unpack (NoDup (sample_attribute.*1))). vm_compute. exact I.
  - apply Hdiff; eexists; reflexivity.
Defined.

(** C6 as stated fails: the same [type] and [value], written in the other
    order, give another cache key. *)
Lemma cache_key_order_counterexample :
  get_prop (VObj sample_attribute) "type"
    = get_prop (VObj sample_attribute_swapped) "type" ∧
  get_prop (VObj sample_attribute) "value"
    = get_prop (VObj sample_attribute_swapped) "value" ∧
  serializedAttr sample_attribute ≠ serializedAttr sample_attribute_swapped.
Proof.
  split; [reflexivity|]. split; [reflexivity|].
  vm_compute. discriminate.
Qed.

(** * Further properties of the code *)

(** ** [encrypt] and [decrypt] as a whole *)

(** X1.  [encrypt] checks the module first, then the size, and only then
    calls the module: with no module loaded it throws 'WASM module not
    loaded yet' whatever the payload; with a module and a serialization of
    65534 bytes or more it throws 'Too large to encrypt' and the module's
    answer plays no part; otherwise it returns what the module's [encrypt]
    answers on [attribute.type], [attribute.value], the public key and the
    framed buffer. *)
Theorem encrypt_spec `{Runtime} (c : Client) (attribute : Attribute) (x : jsval) :
  encrypt c attribute x =
    match module c with
    | None => Throw ModuleNotLoaded
    | Some m =>
        if 65534 <=? byteLength x then Throw TooLarge
        else
          wasm_encrypt m (get_prop (VObj attribute) "type")
            (get_prop (VObj attribute) "value") (public_key (params c))
            (Uint8Array.ToUint8 (byteLength x / 256)
               :: Uint8Array.ToUint8 (byteLength x mod 256)
               :: objectBytes x
               ++ replicate (Z.to_nat (paddedLength (byteLength x) - 2 - byteLength x))
                    "000"%byte)
    end.
Proof.
  unfold encrypt. destruct (module c) as [m|]; [|done].
  assert (0 ≤ byteLength x) as H0 by (unfold byteLength; lia).
  destruct (Z.leb_spec 65534 (byteLength x)) as [Hge|Hlt].
  - unfold encode. fold (byteLength x).
    destruct (Z.leb_spec (65536 - 2) (byteLength x)); [done | lia].
  - rewrite encode_below_limit by done.
    rewrite shr_spec, and_255_spec by lia. done.
Qed.

(** X2.  Round trip through the module: when [encrypt] returned a
    ciphertext and the module's [decrypt] gives back, for that ciphertext
    and the key, the buffer it was made from, [decrypt] returns the value
    that was encrypted, for every serializable value. *)
Theorem decrypt_encrypt `{Runtime} (c : Client) (m : WasmModule)
    (attribute : Attribute) (x : jsval) (usk : string) (ct : list byte) :
  module c = Some m →
  serializable x →
  encrypt c attribute x = OK ct →
  (∀ buf, wasm_encrypt m (get_prop (VObj attribute) "type")
            (get_prop (VObj attribute) "value") (public_key (params c)) buf
          = OK ct →
          wasm_decrypt m ct usk = OK buf) →
  decrypt c usk ct = OK x.
Proof.
  intros Hm (s & Hs & Hparse) Henc Hinv.
  unfold encrypt, decrypt in *. rewrite Hm in *.
  destruct (Z.le_gt_cases 65534 (byteLength x)) as [Hge|Hlt].
  { unfold encode in Henc. fold (byteLength x) in Henc.
    destruct (Z.leb_spec (65536 - 2) (byteLength x)); [discriminate | lia]. }
  rewrite encode_below_limit in Henc by done.
  change (OK ?b ≫= ?k) with (k b) in Henc. cbv beta in Henc.
  rewrite (Hinv _ Henc).
  change (OK ?b ≫= ?k) with (k b). cbv beta.
  rewrite decode_framed.
  - unfold objectBytes. rewrite Hs. exact Hparse.
  - apply length_prefix_written. unfold byteLength in *. lia.
Qed.

Lemma decrypt_encrypt_witness :
  ∃ ct, encrypt loaded_client sample_attribute sample_object = OK ct ∧
        decrypt loaded_client "usk" ct = OK sample_object.
Proof.
  eexists. split; [vm_compute; reflexivity|].
  apply (decrypt_encrypt loaded_client sample_module sample_attribute).
  - reflexivity.
  - eexists. split; [reflexivity | vm_compute; reflexivity].
  - vm_compute. reflexivity.
  - intros buf Hbuf. cbn [sample_module wasm_encrypt wasm_decrypt] in *.
    symmetry. exact Hbuf.
Defined.

(** ** The layout of the padded buffer *)

(** What a successful [encode] means. *)
Lemma encode_OK_inv `{Runtime} (z : jsval) (b : list byte) :
  encode z = OK b →
  0 ≤ byteLength z < 65534 ∧
  b = Uint8Array.ToUint8 (Int32.shr (byteLength z) 8)
        :: Uint8Array.ToUint8 (Int32.and (byteLength z) 255)
        :: objectBytes z
        ++ replicate (Z.to_nat (paddedLength (byteLength z) - 2 - byteLength z))
             "000"%byte.
Proof.
  intros Henc.
  assert (0 ≤ byteLength z) by (unfold byteLength; lia).
  destruct (Z.le_gt_cases 65534 (byteLength z)) as [Hge|Hlt].
  { unfold encode in Henc. fold (byteLength z) in Henc.
    destruct (Z.leb_spec (65536 - 2) (byteLength z)); [discriminate | lia]. }
  split; [lia|].
  rewrite encode_below_limit in Henc by done. congruence.
Qed.

(** X3.  In the buffer that [encode] returns, the bytes at offsets
    [2, 2 + len) are the serialized bytes, and every byte from offset
    [2 + len] to the end is zero. *)
Theorem encode_layout `{Runtime} (x : jsval) (buf : list byte) :
  encode x = OK buf →
  take (length (objectBytes x)) (drop 2 buf) = objectBytes x ∧
  (∀ i, (2 + length (objectBytes x) ≤ i < length buf)%nat →
        buf !! i = Some "000"%byte).
Proof.
  intros Henc. apply encode_OK_inv in Henc as [Hlen ->].
  split.
  - cbn [skipn]. rewrite drop_0. apply take_app_length.
  - intros i [Hlo Hhi].
    destruct i as [|[|j]]; [lia | lia |].
    change ((?a :: ?b :: ?l) !! S (S j)) with (l !! j).
    rewrite lookup_app_r by lia.
    apply lookup_replicate_2.
    cbn [length] in Hhi. rewrite length_app, length_replicate in Hhi. lia.
Qed.

Lemma encode_layout_witness :
  encode (letters 1) = OK (framed (letters 1)) ∧
  take 3 (drop 2 (framed (letters 1))) = [ "034"; "097"; "034" ]%byte ∧
  framed (letters 1) !! 5%nat = Some "000"%byte ∧
  framed (letters 1) !! 511%nat = Some "000"%byte.
Proof.
  assert (encode (letters 1) = OK (framed (letters 1))) as Henc
    by (vm_compute; reflexivity).
  split; [exact Henc|].
  destruct (encode_layout (letters 1) (framed (letters 1)) Henc) as [Hpayload Hzero].
  split; [exact Hpayload|].
  split; apply Hzero; vm_compute; split; apply Nat.leb_le; reflexivity.
Defined.

(** X4.  The buffer length tells the serialized length only up to its
    block of 512: two values whose [len + 1] have the same quotient by 512
    are framed in buffers of the same length, and only they; and every
    buffer has between 512 and 65536 bytes. *)
Theorem encode_length_buckets `{Runtime} (x y : jsval) (bx by_ : list byte) :
  encode x = OK bx → encode y = OK by_ →
  (length bx = length by_ ↔ (byteLength x + 1) / 512 = (byteLength y + 1) / 512) ∧
  512 ≤ Z.of_nat (length bx) ≤ 65536.
Proof.
  assert (∀ z b, encode z = OK b →
            byteLength z < 65534 ∧
            Z.of_nat (length b) = 512 * ((byteLength z + 1) / 512 + 1)) as Hlen.
  { intros z b Henc. apply encode_OK_inv in Henc as [Hz ->].
    split; [lia|].
    destruct (paddedLength_bounds (byteLength z)) as [_ Hb]; [lia|].
    rewrite <- paddedLength_spec by lia.
    cbn [length]. rewrite length_app, length_replicate.
    unfold byteLength in *. lia. }
  intros Hx Hy.
  destruct (Hlen x bx Hx) as [Hltx Hbx], (Hlen y by_ Hy) as [Hlty Hby].
  assert (0 ≤ byteLength x) by (unfold byteLength; lia).
  assert (0 ≤ (byteLength x + 1) / 512) by (apply Z.div_pos; lia).
  assert ((byteLength x + 1) / 512 < 128) by (apply Z.div_lt_upper_bound; lia).
  set (qx := (byteLength x + 1) / 512) in *.
  set (qy := (byteLength y + 1) / 512) in *.
  split; [split; intros Heq|]; lia.
Qed.

Lemma encode_length_buckets_witness :
  encode (letters 0) = OK (framed (letters 0)) ∧
  encode (letters 508) = OK (framed (letters 508)) ∧
  encode (letters 509) = OK (framed (letters 509)) ∧
  length (framed (letters 0)) = length (framed (letters 508)) ∧
  length (framed (letters 508)) ≠ length (framed (letters 509)).
Proof.
  assert (encode (letters 0) = OK (framed (letters 0))) as H0
    by (vm_compute; reflexivity).
  assert (encode (letters 508) = OK (framed (letters 508))) as H508
    by (vm_compute; reflexivity).
  assert (encode (letters 509) = OK (framed (letters 509))) as H509
    by (vm_compute; reflexivity).
  destruct (encode_length_buckets _ _ _ _ H0 H508) as [[_ Hsame] _].
  destruct (encode_length_buckets _ _ _ _ H508 H509) as [[Hdiff _] _].
  split; [exact H0|]. split; [exact H508|]. split; [exact H509|]. split.
  - apply Hsame. vm_compute. reflexivity.
  - intros Heq. apply Hdiff in Heq. vm_compute in Heq. discriminate.
Defined.

(** X5.  The framing loses nothing: two values framed in the same buffer
    have the same serialized bytes, and if both are serializable they are
    the same value. *)
Theorem encode_injective `{Runtime} (x y : jsval) (buf : list byte) :
  encode x = OK buf → encode y = OK buf →
  objectBytes x = objectBytes y ∧
  (serializable x → serializable y → x = y).
Proof.
  intros Hx Hy.
  assert (∀ z, encode z = OK buf →
            byteLength z = length_prefix buf ∧
            objectBytes z = take (Z.to_nat (length_prefix buf)) (drop 2 buf)) as Hread.
  { intros z Henc. apply encode_OK_inv in Henc as [Hz ->].
    rewrite length_prefix_written by lia. split; [done|].
    cbn [skipn]. rewrite drop_0.
    unfold byteLength. rewrite Nat2Z.id. symmetry. apply take_app_length. }
  destruct (Hread x Hx) as [_ Hbx], (Hread y Hy) as [_ Hby].
  assert (objectBytes x = objectBytes y) as Heq by congruence.
  split; [exact Heq|].
  intros (sx & Hsx & Hpx) (sy & Hsy & Hpy).
  unfold objectBytes in Heq. rewrite Hsx, Hsy in Heq.
  change (TextEncoder_encode sx = TextEncoder_encode sy) in Heq.
  rewrite Heq in Hpx. congruence.
Qed.

Lemma encode_injective_witness :
  encode sample_object = OK (framed sample_object) ∧
  ∀ y, encode y = OK (framed sample_object) → serializable y → sample_object = y.
Proof.
  assert (encode sample_object = OK (framed sample_object)) as Henc
    by (vm_compute; reflexivity).
  split; [exact Henc|].
  intros y Hy Hser.
  apply (encode_injective sample_object y (framed sample_object) Henc Hy);
    [|exact Hser].
  eexists. split; [reflexivity | vm_compute; reflexivity].
Defined.

(** ** Edge cases of the framing *)

(** X6.  A buffer of fewer than three bytes has no payload byte: whatever
    its length prefix, [decode] parses the text decoded from no bytes at
    all.  With the reference runtime that text is empty and the parse
    fails. *)
Theorem decode_short_buffer `{Runtime} (buf : list byte) :
  (length buf ≤ 2)%nat → decode buf = JSON_parse (TextDecoder_decode []).
Proof.
  intros Hlen. rewrite decode_unfold.
  rewrite (drop_ge buf 2) by lia. by rewrite take_nil.
Qed.

Lemma decode_short_buffer_witness :
  decode [] = Throw SyntaxError ∧
  decode [ "255" ]%byte = Throw SyntaxError ∧
  decode [ "000"; "001" ]%byte = Throw SyntaxError.
Proof.
  assert (JSON_parse (TextDecoder_decode []) = Throw SyntaxError) as Hempty
    by (vm_compute; reflexivity).
  rewrite <- Hempty.
  split; [|split]; apply decode_short_buffer; cbn [length]; lia.
Defined.

(** X7.  A value without serialization ([undefined]) is framed like the
    empty text: when [TextEncoder] encodes the empty string to no bytes,
    [encode] returns 512 zero bytes, and [decode] of that buffer parses
    the empty text, so the value does not come back. *)
Theorem encode_without_serialization `{Runtime} (x : jsval) :
  JSON_stringify x = None → TextEncoder_encode "" = [] →
  encode x = OK (replicate 512 "000"%byte) ∧
  decode (replicate 512 "000"%byte) = JSON_parse (TextDecoder_decode []).
Proof.
  intros Hnone Hempty.
  assert (objectBytes x = []) as Hbytes by (unfold objectBytes; by rewrite Hnone).
  assert (byteLength x = 0) as Hlen by (unfold byteLength; by rewrite Hbytes).
  split.
  - rewrite encode_below_limit by lia. rewrite Hlen, Hbytes.
    rewrite shr_spec, and_255_spec by lia.
    rewrite paddedLength_spec by lia. f_equal.
  - rewrite decode_unfold.
    replace (length_prefix (replicate 512 "000"%byte)) with 0
      by (symmetry; apply (length_prefix_written 0); lia).
    by rewrite take_0.
Qed.

Lemma encode_without_serialization_witness :
  encode VUndefined = OK (replicate 512 "000"%byte) ∧
  encode VUndefined ≫= decode = Throw SyntaxError.
Proof.
  assert (TextEncoder_encode "" = []) as Hempty by (vm_compute; reflexivity).
  destruct (encode_without_serialization VUndefined eq_refl Hempty) as [Henc Hdec].
  split; [exact Henc|].
  rewrite Henc. change (OK ?b ≫= ?k) with (k b). cbv beta.
  rewrite Hdec. vm_compute. reflexivity.
Defined.

(** ** [requestToken] in every case *)

Section RequestTokenCases.
Context `{Runtime} (env : Environment).

Lemma _requestToken_unfold attribute w :
  _requestToken env attribute w =
    (match irmaFrontend_start env (url (this w)) (request_body attribute) with
     | OK map => OK (get_prop map "sessionToken")
     | Throw e => Throw e
     end,
     log (EvPopup (url (this w)) (request_body attribute)) w).
Proof.
  unfold _requestToken. fold (request_body attribute).
  by destruct (irmaFrontend_start env (url (this w)) (request_body attribute)).
Qed.

(** The four ways a call can go, with the world each leaves. *)
Lemma requestToken_cases attribute w :
  let popup := EvPopup (url (this w)) (request_body attribute) in
  (localStorage (this w) = None ∧
   (requestToken env attribute w).2 = log popup w)
  ∨ (∃ st, localStorage (this w) = Some st ∧
           is_OK (requestToken env attribute w).1 = true ∧
           (requestToken env attribute w).2 = tested attribute w)
  ∨ (∃ st e, localStorage (this w) = Some st ∧
             (requestToken env attribute w).1 = Throw e ∧
             (requestToken env attribute w).2 = log popup (tested attribute w))
  ∨ (∃ st token entry,
       localStorage (this w) = Some st ∧
       (requestToken env attribute w).1 = OK token ∧
       (requestToken env attribute w).2 =
         log (EvSet {[ serializedAttr attribute := entry ]})
           {| this := with_storage (this w)
                        (<[ serializedAttr attribute := entry ]> st);
              ticks := S (ticks (tested attribute w));
              trace := popup :: trace (tested attribute w) |}).
Proof.
  intros popup.
  destruct (localStorage (this w)) as [st|] eqn:Hst.
  - right.
    destruct (valid_entry (clock env (ticks w)) (cached_entry w attribute)) eqn:Hv.
    + left. exists st. rewrite (requestToken_hit env attribute w st) by done. done.
    + right. rewrite (requestToken_miss env attribute w st) by done. cbv zeta.
      destruct (irmaFrontend_start env (url (this w)) (request_body attribute))
        as [map|e].
      * right. eexists st, _, _. rewrite insert_union_singleton_l. done.
      * left. by exists st, e.
  - left. rewrite requestToken_no_store, _requestToken_unfold by done. done.
Qed.

End RequestTokenCases.



(** X9.  Whatever the store, the clock and the session do, one call runs
    at most one popup session and makes at most one write; it writes only
    when it returns a token and has run a session; it keeps what was
    logged before; and it leaves the url, the parameters and the module of
    the client as they were. *)
Theorem requestToken_effects `{Runtime} (env : Environment)
    (attribute : Attribute) (w : World) :
  let r := (requestToken env attribute w).1 in
  let w' := (requestToken env attribute w).2 in
  (length (popups w') ≤ S (length (popups w)))%nat ∧
  (length (writes w') ≤ S (length (writes w)))%nat ∧
  (writes w' ≠ writes w →
   is_OK r = true ∧ length (popups w') = S (length (popups w))) ∧
  trace w `suffix_of` trace w' ∧
  url (this w') = url (this w) ∧ params (this w') = params (this w) ∧
  module (this w') = module (this w).
Proof.
  intros r w'. subst r w'.
  destruct (requestToken_cases env attribute w)
    as [[Hst ->] | [(st & Hst & Hok & ->) | [(st & e & Hst & Hr & ->)
        | (st & token & entry & Hst & Hr & ->)]]];
    unfold popups, writes, tested, advance, log; cbn [this ticks trace omap list_omap length
      url params module with_storage].
  - repeat split; try lia; try done. by apply suffix_cons_r.
  - repeat split; try lia; try done. by apply suffix_cons_r.
  - repeat split; try lia; try done. by do 2 apply suffix_cons_r.
  - rewrite Hr. repeat split; try lia; try done. by do 3 apply suffix_cons_r.
Qed.

(** X10.  A call for one attribute never changes what the store holds
    under the key of another: every key other than the serialized
    attribute reads the same after the call as before it. *)
Theorem requestToken_other_keys `{Runtime} (env : Environment)
    (attribute : Attribute) (w : World) (k : string) :
  k ≠ serializedAttr attribute →
  storage (requestToken env attribute w).2 !! k = storage w !! k.
Proof.
  intros Hk.
  destruct (requestToken_cases env attribute w)
    as [[Hst ->] | [(st & Hst & Hok & ->) | [(st & e & Hst & Hr & ->)
        | (st & token & entry & Hst & Hr & ->)]]]; try done.
  unfold storage, log. cbn [this localStorage with_storage default].
  rewrite Hst. cbn [default]. by apply lookup_insert_ne.
Qed.

Lemma requestToken_other_keys_witness :
  storage (requestToken sample_env sample_attribute
             (sample_world (Some (sample_store 5)))).2
    !! serializedAttr sample_attribute_swapped
  = None.
Proof.
  rewrite requestToken_other_keys; [reflexivity|].
  vm_compute. discriminate.
Defined.

(** ** Two calls in a row *)

Section RequestTokenTwice.
Context `{Runtime} (env : Environment).



End RequestTokenTwice.





(** ** The time arithmetic of the cache *)


(** ** [decrypt] as a whole *)

(** X14.  [decrypt] checks the module first; an error of the module's
    [decrypt] is passed on; otherwise the result is the parse of the text
    decoded from the bytes of the plaintext buffer at offsets
    [2, 2 + len), as many as there are. *)
Theorem decrypt_spec `{Runtime} (c : Client) (usk : string) (ct : list byte) :
  decrypt c usk ct =
    match module c with
    | None => Throw ModuleNotLoaded
    | Some m =>
        match wasm_decrypt m ct usk with
        | Throw e => Throw e
        | OK buf =>
            JSON_parse (TextDecoder_decode
                          (take (Z.to_nat (length_prefix buf)) (drop 2 buf)))
        end
    end.
Proof.
  unfold decrypt. destruct (module c) as [m|]; [|done].
  destruct (wasm_decrypt m ct usk) as [buf|e]; [|done].
  apply decode_unfold.
Qed.

(** ** [requestKey] *)

Section RequestKeyFacts.
Context `{Runtime} (net : Network).

(** The end state of the promise, case by case. *)
Lemma requestKey_unfold c token timestamp :
  requestKey net c token timestamp =
    match fetch net (key_request_url c token timestamp) with
    | RejectedWith _ => None
    | Fulfilled resp =>
        if status resp =? 200 then
          match JSON_parse (body resp) with
          | Throw _ => None
          | OK json =>
              match json with
              | VUndefined | VNull => None
              | _ => if status_differs json then Some (Throw NotValid)
                     else Some (OK (get_prop json "key"))
              end
          end
        else Some (Throw NotOk)
    end.
Proof.
  unfold requestKey.
  destruct (fetch net (key_request_url c token timestamp)) as [resp|r]; [|done].
  cbn [then_]. unfold on_response.
  destruct (status resp =? 200); cbn [negb]; [|done].
  unfold Response_json.
  destruct (JSON_parse (body resp)) as [json|e]; [|done].
  cbn [then_]. unfold on_json.
  destruct json; try done; by destruct (status_differs _).
Qed.

Lemma status_differs_false json :
  status_differs json = false ↔ get_prop json "status" = VStr "DONE_VALID".
Proof.
  unfold status_differs.
  destruct (get_prop json "status") as [| |b|n|s|l|p]; try (split; discriminate).
  rewrite negb_false_iff, String.eqb_eq. split; congruence.
Qed.

End RequestKeyFacts.

(** X15.  The promise of [requestKey] is resolved, with [json.key],
    exactly when the request was answered with status 200 and a body that
    parses to a value whose [status] is the string 'DONE_VALID'. *)
Theorem requestKey_resolves `{Runtime} (net : Network) (c : Client)
    (token : jsval) (timestamp : Z) (key : jsval) :
  requestKey net c token timestamp = Some (OK key) ↔
  ∃ resp json,
    fetch net (key_request_url c token timestamp) = Fulfilled resp ∧
    status resp = 200 ∧
    JSON_parse (body resp) = OK json ∧
    get_prop json "status" = VStr "DONE_VALID" ∧
    key = get_prop json "key".
Proof.
  rewrite requestKey_unfold. split.
  - destruct (fetch net (key_request_url c token timestamp)) as [resp|r]; [|done].
    destruct (Z.eqb_spec (status resp) 200) as [Hst|Hst]; [|done].
    destruct (JSON_parse (body resp)) as [json|e] eqn:Hparse; [|done].
    intros Hk. exists resp, json.
    assert (status_differs json = false ∧ key = get_prop json "key") as [Hd ->].
    { destruct json; try done; destruct (status_differs _); split; congruence. }
    apply status_differs_false in Hd. done.
  - intros (resp & json & -> & Hst & -> & Hs & ->).
    rewrite Hst. cbn [Z.eqb Pos.eqb].
    pose proof (proj2 (status_differs_false json) Hs) as Hd. rewrite Hd.
    destruct json; try done.
Qed.

(** X16.  The promise of [requestKey] is never rejected with the error of
    the network or of the parser: it stays pending for ever exactly when
    [fetch] is rejected, or the answer has status 200 and a body that is
    not JSON or that is [null]. *)
Theorem requestKey_pending `{Runtime} (net : Network) (c : Client)
    (token : jsval) (timestamp : Z) :
  requestKey net c token timestamp = None ↔
  (∃ r, fetch net (key_request_url c token timestamp) = RejectedWith r) ∨
  (∃ resp,
     fetch net (key_request_url c token timestamp) = Fulfilled resp ∧
     status resp = 200 ∧
     ((∃ e, JSON_parse (body resp) = Throw e) ∨
      JSON_parse (body resp) = OK VNull ∨
      JSON_parse (body resp) = OK VUndefined)).
Proof.
  rewrite requestKey_unfold. split.
  - destruct (fetch net (key_request_url c token timestamp)) as [resp|r];
      [|by left; exists r].
    destruct (Z.eqb_spec (status resp) 200) as [Hst|Hst]; [|done].
    intros Hnone. right. exists resp. split; [done|]. split; [done|].
    destruct (JSON_parse (body resp)) as [json|e] eqn:Hparse; [|by left; exists e].
    right. destruct json; try (by left); try (by right);
      by destruct (status_differs _).
  - intros [[r ->] | (resp & -> & Hst & Hbody)]; [done|].
    rewrite Hst. cbn [Z.eqb Pos.eqb].
    by destruct Hbody as [[e ->] | [-> | ->]].
Qed.

(** X17.  When the promise of [requestKey] is rejected, it is with one of
    the two errors of the code: 'not ok' exactly when the answer has a
    status other than 200, whatever its body says, and 'not valid' exactly
    when the answer has status 200 and a body that parses to a value,
    other than [null], whose [status] is not the string 'DONE_VALID'. *)
Theorem requestKey_rejects `{Runtime} (net : Network) (c : Client)
    (token : jsval) (timestamp : Z) :
  (∀ e, requestKey net c token timestamp = Some (Throw e) →
        e = NotOk ∨ e = NotValid) ∧
  (requestKey net c token timestamp = Some (Throw NotOk) ↔
   ∃ resp, fetch net (key_request_url c token timestamp) = Fulfilled resp ∧
           status resp ≠ 200) ∧
  (requestKey net c token timestamp = Some (Throw NotValid) ↔
   ∃ resp json,
     fetch net (key_request_url c token timestamp) = Fulfilled resp ∧
     status resp = 200 ∧
     JSON_parse (body resp) = OK json ∧
     json ≠ VNull ∧ json ≠ VUndefined ∧
     get_prop json "status" ≠ VStr "DONE_VALID").
Proof.
  rewrite requestKey_unfold.
  destruct (fetch net (key_request_url c token timestamp)) as [resp|r].
  2: { split; [done|]. split; split; try done.
       - by intros (? & ? & _).
       - by intros (? & ? & ? & _). }
  destruct (Z.eqb_spec (status resp) 200) as [Hst|Hst].
  2: { split; [intros e [= <-]; by left|]. split; split; try done.
       - intros _. by exists resp.
       - intros (? & ? & [= <-] & ? & _). done. }
  destruct (JSON_parse (body resp)) as [json|e0] eqn:Hparse.
  2: { split; [done|]. split; split; try done.
       - intros (? & [= <-] & ?). done.
       - intros (? & ? & [= <-] & _ & ? & _). congruence. }
  pose proof (status_differs_false json) as Hd.
  assert (∀ e, match json with
               | VUndefined | VNull => None
               | _ => if status_differs json then Some (Throw NotValid)
                      else Some (OK (get_prop json "key"))
               end = Some (Throw e) →
               e = NotValid ∧ json ≠ VNull ∧ json ≠ VUndefined ∧
               status_differs json = true) as Hinv.
  { intros e. destruct json; try done; destruct (status_differs _); try done;
      intros [= <-]; done. }
  split; [intros e He; right; by apply Hinv in He as [? _]|].
  split; split.
  - intros He. by apply Hinv in He as [? _].
  - intros (? & [= <-] & ?). done.
  - intros He. apply Hinv in He as (_ & Hn & Hu & Hs).
    exists resp, json. repeat split; try done.
    intros Heq. apply Hd in Heq. congruence.
  - intros (? & j & [= <-] & _ & Hj & Hn & Hu & Hs).
    rewrite Hparse in Hj. injection Hj as <-.
    assert (status_differs json = true) as ->.
    { apply not_false_iff_true. intros E. by apply Hd in E. }
    by destruct json.
Qed.

(** * The reference runtime reads back what [JSON.stringify] writes *)

(** ** Text: ASCII strings pass through [TextEncoder] and [TextDecoder] *)

Lemma append_cons c s1 s2 : String c s1 +:+ s2 = String c (s1 +:+ s2).
Proof. done. Qed.

Lemma append_nil s : "" +:+ s = s.
Proof. done. Qed.

Lemma ascii_only_app s1 s2 :
  ascii_only (s1 +:+ s2) = ascii_only s1 && ascii_only s2.
Proof.
  unfold ascii_only. induction s1 as [|c s1 IH]; [done|].
  rewrite append_cons. cbn [list_ascii_of_string forallb].
  rewrite IH. apply andb_assoc.
Qed.

Lemma ascii_only_cons c s :
  ascii_only (String c s) = (N_of_ascii c <? 128)%N && ascii_only s.
Proof. done. Qed.

Lemma utf8_run_ascii (l : list N) :
  forallb (λ n, (n <? 128)%N) l = true →
  Ref.utf8_run Ref.utf8_idle l = l.
Proof.
  induction l as [|b l IH]; [done|].
  cbn [forallb]. intros [Hb Hl]%andb_true_iff.
  cbn [Ref.utf8_run]. unfold Ref.utf8_step. cbn [Ref.needed Ref.utf8_idle].
  unfold Ref.utf8_lead.
  assert ((b <=? 127)%N = true) as -> by (apply N.leb_le; apply N.ltb_lt in Hb; lia).
  cbn [app]. f_equal. by apply IH.
Qed.

Lemma drop_BOM_ascii (l : list N) :
  forallb (λ n, (n <? 128)%N) l = true → Ref.drop_BOM l = l.
Proof.
  destruct l as [|b l]; [done|].
  cbn [forallb]. intros [Hb _]%andb_true_iff. apply N.ltb_lt in Hb.
  unfold Ref.drop_BOM.
  destruct b as [|p]; [done|].
  do 8 (destruct p as [p|p|]; try done); lia.
Qed.

Lemma bytes_of_string s :
  Byte.to_N <$> list_byte_of_string s = Ref.codes_of_string s.
Proof.
  unfold list_byte_of_string, Ref.codes_of_string.
  induction (list_ascii_of_string s) as [|c l IH]; [done|].
  cbn [map fmap list_fmap]. f_equal; [|exact IH].
  pose proof (byte_of_ascii_via_N c) as Hc. symmetry in Hc.
  by apply Byte.to_of_N in Hc.
Qed.

Lemma string_of_codes_of_string s :
  Ref.string_of_codes (Ref.codes_of_string s) = s.
Proof.
  unfold Ref.string_of_codes, Ref.codes_of_string.
  rewrite <- (string_of_list_ascii_of_string s) at 2. f_equal.
  induction (list_ascii_of_string s) as [|c l IH]; [done|].
  cbn [fmap list_fmap]. f_equal; [apply ascii_N_embedding | exact IH].
Qed.

(** ASCII text survives encoding and decoding. *)
Lemma decode_encode_text s :
  ascii_only s = true → Ref.TextDecoder_decode (Ref.TextEncoder_encode s) = s.
Proof.
  intros Hs. unfold Ref.TextDecoder_decode, Ref.TextEncoder_encode.
  rewrite bytes_of_string.
  assert (forallb (λ n, (n <? 128)%N) (Ref.codes_of_string s) = true) as Hc.
  { unfold Ref.codes_of_string, ascii_only in *.
    induction (list_ascii_of_string s) as [|c l IH]; [done|].
    cbn [forallb fmap list_fmap] in *.
    apply andb_true_iff in Hs as [-> Hl]. by apply IH. }
  rewrite drop_BOM_ascii, utf8_run_ascii by done.
  apply string_of_codes_of_string.
Qed.

(** ** Numerals *)

Lemma span_digits_uint u rest :
  match rest with String c _ => Ref.is_digit c = false | EmptyString => True end →
  Ref.span_digits (NilEmpty.string_of_uint u +:+ rest)
  = (NilEmpty.string_of_uint u, rest).
Proof.
  intros Hrest.
  induction u as [|u IH|u IH|u IH|u IH|u IH|u IH|u IH|u IH|u IH|u IH];
    cbn [NilEmpty.string_of_uint];
    try (rewrite append_cons; cbn [Ref.span_digits];
         change (Ref.is_digit _) with true; cbv iota; by rewrite IH).
  rewrite append_nil. destruct rest as [|c rest]; [done|].
  cbn [Ref.span_digits]. by rewrite Hrest.
Qed.

Lemma no_leading_zero u :
  Decimal.unorm u = u → Ref.leading_zero (NilEmpty.string_of_uint u) = false.
Proof.
  intros Hnorm. destruct u as [|u|u|u|u|u|u|u|u|u|u]; try done;
    try (cbn [NilEmpty.string_of_uint]; unfold Ref.leading_zero;
         by destruct (NilEmpty.string_of_uint u)).
  destruct (Decimal.uint_eq_dec u Decimal.Nil) as [->|Hne]; [done|].
  exfalso. rewrite DecimalFacts.unorm_D0 in Hnorm.
  pose proof (DecimalFacts.nb_digits_unorm u Hne) as Hlen.
  rewrite Hnorm in Hlen. cbn [Decimal.nb_digits] in Hlen. lia.
Qed.

Lemma to_int_normal n :
  Decimal.unorm (Decimal.abs (Z.to_int n)) = Decimal.abs (Z.to_int n) ∧
  Decimal.abs (Z.to_int n) ≠ Decimal.Nil.
Proof.
  pose proof (DecimalZ.to_of (Z.to_int n)) as Hnorm.
  rewrite DecimalZ.of_to in Hnorm.
  split.
  - rewrite <- DecimalFacts.abs_norm. by rewrite <- Hnorm.
  - destruct n as [|p|p]; cbn; [done | apply DecimalPos.Unsigned.to_uint_nonnil ..].
Qed.

(** The numeral of [n], followed by the end of a value, reads as [n]. *)
Lemma parse_number_toString n rest :
  terminated rest = true →
  Ref.parse_number (Number_toString n +:+ rest) = Some (n, rest).
Proof.
  intros Hrest.
  assert (match rest with String c _ => Ref.is_digit c = false | EmptyString => True end)
    as Hnd.
  { destruct rest as [|c rest]; [done|]. unfold terminated in Hrest.
    unfold Ref.is_digit.
    destruct (N.eqb_spec (N_of_ascii c) 44) as [->|]; [done|].
    destruct (N.eqb_spec (N_of_ascii c) 93) as [->|]; [done|].
    destruct (N.eqb_spec (N_of_ascii c) 125) as [->|]; done. }
  assert (Ref.continues_numeral rest = false) as Hcont.
  { destruct rest as [|c rest]; [done|]. unfold terminated in Hrest.
    unfold Ref.continues_numeral.
    destruct (N.eqb_spec (N_of_ascii c) 44) as [->|]; [done|].
    destruct (N.eqb_spec (N_of_ascii c) 93) as [->|]; [done|].
    destruct (N.eqb_spec (N_of_ascii c) 125) as [->|]; done. }
  destruct (to_int_normal n) as [Hnorm Hnil].
  pose proof (DecimalZ.of_to n) as Hof.
  unfold Number_toString.
  destruct (Z.to_int n) as [u|u] eqn:Hd; cbn [Decimal.abs] in Hnorm, Hnil.
  - (* no sign *)
    assert (NilZero.string_of_uint u = NilEmpty.string_of_uint u) as Hs
      by (by destruct u).
    cbn [NilZero.string_of_int]. rewrite Hs.
    pose proof (NilZero.isi (Decimal.Pos u)) as Hisi.
    cbn [NilZero.string_of_int] in Hisi. rewrite Hs in Hisi.
    unfold Ref.parse_number.
    destruct (NilEmpty.string_of_uint u) as [|c ds] eqn:Hds; [by destruct u|].
    assert ((N_of_ascii c =? 45)%N = false) as Hc.
    { destruct u; try done; by injection Hds as <- _. }
    rewrite append_cons, Hc. rewrite <- append_cons, <- Hds.
    rewrite span_digits_uint by done. rewrite Hds. cbv iota beta.
    rewrite <- Hds, no_leading_zero, Hcont by done. cbn [orb].
    rewrite append_nil, Hds, Hisi by congruence. by rewrite Hof.
  - (* a minus sign *)
    assert (NilZero.string_of_uint u = NilEmpty.string_of_uint u) as Hs
      by (by destruct u).
    cbn [NilZero.string_of_int]. rewrite Hs.
    pose proof (NilZero.isi (Decimal.Neg u)) as Hisi.
    cbn [NilZero.string_of_int] in Hisi. rewrite Hs in Hisi.
    unfold Ref.parse_number. rewrite append_cons.
    change (N_of_ascii "-" =? 45)%N with true. cbv iota.
    rewrite span_digits_uint by done.
    destruct (NilEmpty.string_of_uint u) as [|c ds] eqn:Hds; [by destruct u|].
    rewrite <- Hds, no_leading_zero, Hcont by done. cbn [orb].
    change ("-" +:+ NilEmpty.string_of_uint u)
      with (String "-" (NilEmpty.string_of_uint u)).
    rewrite Hds, Hisi by congruence. by rewrite Hof.
Qed.

(** ** String literals *)

Lemma append_assoc_s (a b c : string) : (a +:+ b) +:+ c = a +:+ (b +:+ c).
Proof.
  induction a as [|x a IH]; [done|]. rewrite !append_cons. by rewrite IH.
Qed.

Lemma length_append_s (a b : string) :
  String.length (a +:+ b) = (String.length a + String.length b)%nat.
Proof.
  induction a as [|x a IH]; [done|].
  rewrite append_cons. cbn [String.length]. by rewrite IH.
Qed.

(** One character: what [QuoteJSONString] writes for it reads as it. *)
Lemma parse_chars_quote_char c t :
  Ref.parse_chars (quote_char c +:+ t) =
    match Ref.parse_chars t with
    | Some (cs, rest) => Some (String c cs, rest)
    | None => None
    end.
Proof. destruct c as [[] [] [] [] [] [] [] []]; reflexivity. Qed.

Lemma parse_chars_quote_chars s rest :
  Ref.parse_chars (quote_chars s +:+ String dquote rest) = Some (s, rest).
Proof.
  induction s as [|c s IH]; [done|].
  cbn [quote_chars]. rewrite append_assoc_s, parse_chars_quote_char.
  by rewrite IH.
Qed.

Lemma QuoteJSONString_app s rest :
  QuoteJSONString s +:+ rest = String dquote (quote_chars s +:+ String dquote rest).
Proof.
  unfold QuoteJSONString. rewrite append_cons, append_assoc_s. done.
Qed.

(** ** Objects: properties created in property order stay in that order *)

Lemma assoc_not_seen k (acc : list (string * jsval)) :
  existsb (String.eqb k) (acc.*1) = false → assoc k acc = None.
Proof.
  induction acc as [|[k' v'] acc IH]; [done|].
  cbn [fmap list_fmap fst existsb assoc].
  intros [Hk Hacc]%orb_false_iff. rewrite Hk. by apply IH.
Qed.

Lemma insert_index_last n k v (acc : list (string * jsval)) :
  forallb (index_below n) (acc.*1) = true →
  Ref.insert_index n k v acc = acc ++ [(k, v)].
Proof.
  induction acc as [|[k' v'] acc IH]; [done|].
  cbn [fmap list_fmap fst forallb Ref.insert_index].
  intros [Hk Hacc]%andb_true_iff. unfold index_below in Hk.
  destruct (Ref.array_index k') as [n'|]; [|done].
  rewrite Hk. cbn [app]. f_equal. by apply IH.
Qed.

Lemma define_property_in_order (acc props : list (string * jsval)) :
  property_order_from (acc.*1) (props.*1) = true →
  fold_left (λ ps kv, Ref.define_property ps kv.1 kv.2) props acc = acc ++ props.
Proof.
  revert acc. induction props as [|[k v] props IH]; intros acc Hord.
  { by rewrite app_nil_r. }
  cbn [fmap list_fmap fst property_order_from] in Hord.
  apply andb_true_iff in Hord as [[Hnew Hidx]%andb_true_iff Hrest].
  apply negb_true_iff in Hnew.
  cbn [fold_left fst snd].
  assert (Ref.define_property acc k v = acc ++ [(k, v)]) as ->.
  { unfold Ref.define_property. rewrite assoc_not_seen by done.
    destruct (Ref.array_index k) as [n|]; [|done].
    by apply insert_index_last. }
  rewrite IH.
  - by rewrite <- app_assoc.
  - by rewrite fmap_app.
Qed.

Lemma object_of_members_in_order (props : list (string * jsval)) :
  property_order_from [] (props.*1) = true →
  Ref.object_of_members props = VObj props.
Proof.
  intros Hord. unfold Ref.object_of_members.
  by rewrite (define_property_in_order [] props).
Qed.

(** ** Values *)

Section ParseEquations.
Import Ref.

Lemma skip_ws_keep c r : is_ws (N_of_ascii c) = false → skip_ws (String c r) = String c r.
Proof. intros Hc. cbn [skip_ws]. by rewrite Hc. Qed.

Lemma parse_value_array f r :
  parse_value (S f) (String "[" r) =
    match skip_ws r with
    | EmptyString => None
    | String c' r' =>
        if (code c' =? 93)%N then Some (VArr [], r')
        else match parse_elements f r with
             | Some (vs, rest) => Some (VArr vs, rest)
             | None => None
             end
    end.
Proof. reflexivity. Qed.

Lemma parse_value_object f r :
  parse_value (S f) (String "{" r) =
    match skip_ws r with
    | EmptyString => None
    | String c' r' =>
        if (code c' =? 125)%N then Some (VObj [], r')
        else match parse_members f r with
             | Some (ms, rest) => Some (object_of_members ms, rest)
             | None => None
             end
    end.
Proof. reflexivity. Qed.

Lemma parse_value_string f r :
  parse_value (S f) (String dquote r) =
    match parse_chars r with
    | Some (str, rest) => Some (VStr str, rest)
    | None => None
    end.
Proof. reflexivity. Qed.

Lemma parse_value_number f c r :
  number_start c = true →
  parse_value (S f) (String c r) =
    match parse_number (String c r) with
    | Some (n, rest) => Some (VNum n, rest)
    | None => None
    end.
Proof.
  destruct c as [[] [] [] [] [] [] [] []]; first [discriminate | reflexivity].
Qed.

Lemma parse_elements_eq f s :
  parse_elements (S f) s =
    match parse_value f s with
    | None => None
    | Some (v, rest) =>
        match skip_ws rest with
        | EmptyString => None
        | String c r =>
            if (code c =? 44)%N then
              match parse_elements f r with
              | Some (vs, rest') => Some (v :: vs, rest')
              | None => None
              end
            else if (code c =? 93)%N then Some ([v], r)
            else None
        end
    end.
Proof. reflexivity. Qed.

Lemma parse_members_eq f k tail :
  parse_members (S f) (String dquote (quote_chars k +:+ String dquote (String ":" tail))) =
    match parse_value f tail with
    | None => None
    | Some (v, rest1) =>
        match skip_ws rest1 with
        | EmptyString => None
        | String c r2 =>
            if (code c =? 44)%N then
              match parse_members f r2 with
              | Some (ms, rest2) => Some ((k, v) :: ms, rest2)
              | None => None
              end
            else if (code c =? 125)%N then Some ([(k, v)], r2)
            else None
        end
    end.
Proof.
  cbn [parse_members]. rewrite skip_ws_keep by done.
  change (code dquote =? 34)%N with true. cbv iota.
  rewrite parse_chars_quote_chars. by rewrite skip_ws_keep by done.
Qed.

End ParseEquations.

Lemma numeral_head n :
  ∃ c r, Number_toString n = String c r ∧ number_start c = true.
Proof.
  unfold Number_toString. destruct (Z.to_int n) as [u|u]; [|by eexists _, _].
  cbn [NilZero.string_of_int].
  destruct u; by eexists _, _.
Qed.

(** What a serialization starts with is no white space and closes no
    array and no object. *)
Lemma stringify_head x s :
  JSON_stringify x = Some s →
  ∃ c r, s = String c r ∧ Ref.is_ws (N_of_ascii c) = false ∧
         (Ref.code c =? 93)%N = false ∧ (Ref.code c =? 125)%N = false.
Proof.
  destruct x as [| |[]|n|str|elems|props]; intros [= <-]; try by eexists _, _.
  destruct (numeral_head n) as (c & r & -> & Hc). exists c, r.
  split; [done|]. revert Hc.
  destruct c as [[] [] [] [] [] [] [] []]; first [discriminate | done].
Qed.

Lemma json_value_serialized x :
  json_value x = true → JSON_stringify x = Some (element_text x).
Proof. unfold element_text. by destruct x as [| |[]|n|str|elems|props]. Qed.

Lemma element_text_length x :
  json_value x = true → (0 < String.length (element_text x))%nat.
Proof.
  intros Hx. destruct (stringify_head x _ (json_value_serialized x Hx))
    as (c & r & -> & _). cbn [String.length]. lia.
Qed.

Lemma omap_member_text (props : list (string * jsval)) :
  forallb (λ kv, ascii_only kv.1 && json_value kv.2) props = true →
  omap (λ kv, match JSON_stringify kv.2 with
              | Some s => Some (QuoteJSONString kv.1 +:+ ":" +:+ s)
              | None => None
              end) props
  = map member_text props.
Proof.
  induction props as [|kv props IH]; [done|].
  cbn [forallb omap list_omap map].
  intros [[_ Hv]%andb_true_iff Hrest]%andb_true_iff.
  rewrite (json_value_serialized _ Hv).
  change (list_omap ?f ?l) with (omap f l). rewrite IH by done. done.
Qed.

Section ParseStringify.
Import Ref.

Lemma terminated_skip_ws rest : terminated rest = true → skip_ws rest = rest.
Proof.
  destruct rest as [|c rest]; [done|]. unfold terminated.
  intros Hc. apply skip_ws_keep. unfold is_ws.
  destruct (N.eqb_spec (N_of_ascii c) 44) as [->|]; [done|].
  destruct (N.eqb_spec (N_of_ascii c) 93) as [->|]; [done|].
  destruct (N.eqb_spec (N_of_ascii c) 125) as [->|]; done.
Qed.

Lemma parse_elements_join (elems : list jsval) :
  Forall reads_back elems →
  forallb json_value elems = true →
  elems ≠ [] →
  ∀ fuel rest,
    (S (String.length (join_comma (map element_text elems))) < fuel)%nat →
    parse_elements fuel (join_comma (map element_text elems) +:+ String "]" rest)
    = Some (elems, rest).
Proof.
  induction elems as [|x elems IH]; [done|].
  intros Hall Hjson _ fuel rest Hfuel.
  apply Forall_cons_1 in Hall as [Hx Hall].
  cbn [forallb] in Hjson. apply andb_true_iff in Hjson as [Hjx Hjson].
  destruct fuel as [|f]; [lia|]. rewrite parse_elements_eq.
  destruct elems as [|y elems].
  - cbn [map join_comma] in *.
    rewrite (Hx Hjx f (String "]" rest)) by (done || lia).
    rewrite skip_ws_keep by done. done.
  - change (join_comma (map element_text (x :: y :: elems)))
      with (element_text x +:+ "," +:+ join_comma (map element_text (y :: elems))) in *.
    rewrite !length_append_s in Hfuel. cbn [String.length] in Hfuel.
    rewrite !append_assoc_s. rewrite (append_cons "," "").  rewrite append_nil.
    rewrite (Hx Hjx f) by (done || lia).
    rewrite skip_ws_keep by done.
    change (code "," =? 44)%N with true. cbv iota.
    pose proof (element_text_length x Hjx).
    rewrite IH by (done || lia). done.
Qed.

Lemma parse_members_join (props : list (string * jsval)) :
  Forall (λ kv, reads_back kv.2) props →
  forallb (λ kv, ascii_only kv.1 && json_value kv.2) props = true →
  props ≠ [] →
  ∀ fuel rest,
    (S (String.length (join_comma (map member_text props))) < fuel)%nat →
    parse_members fuel (join_comma (map member_text props) +:+ String "}" rest)
    = Some (props, rest).
Proof.
  induction props as [|[k v] props IH]; [done|].
  intros Hall Hjson _ fuel rest Hfuel.
  apply Forall_cons_1 in Hall as [Hv Hall]. cbn [snd] in Hv.
  cbn [forallb fst snd] in Hjson.
  apply andb_true_iff in Hjson as [[_ Hjv]%andb_true_iff Hjson].
  destruct fuel as [|f]; [lia|].
  assert (∀ tail, member_text (k, v) +:+ tail
            = String dquote (quote_chars k +:+ String dquote
                               (String ":" (element_text v +:+ tail)))) as Hmember.
  { intros tail. unfold member_text. cbn [fst snd].
    rewrite !append_assoc_s, QuoteJSONString_app. done. }
  assert (String.length (element_text v) < String.length (member_text (k, v)))%nat
    as Hlen.
  { unfold member_text, QuoteJSONString. cbn [fst snd].
    rewrite append_cons. cbn [String.length].
    rewrite !length_append_s. cbn [String.length]. lia. }
  destruct props as [|kv props].
  - cbn [map join_comma] in *.
    rewrite Hmember, parse_members_eq.
    rewrite (Hv Hjv f (String "}" rest)) by (done || lia).
    rewrite skip_ws_keep by done. done.
  - change (join_comma (map member_text ((k, v) :: kv :: props)))
      with (member_text (k, v) +:+ "," +:+ join_comma (map member_text (kv :: props)))
      in *.
    rewrite !length_append_s in Hfuel. cbn [String.length] in Hfuel.
    rewrite append_assoc_s, Hmember, parse_members_eq.
    rewrite !append_assoc_s. rewrite (append_cons "," ""). rewrite append_nil.
    rewrite (Hv Hjv f) by (done || lia).
    rewrite skip_ws_keep by done.
    change (code "," =? 44)%N with true. cbv iota.
    rewrite IH by (done || lia). done.
Qed.

End ParseStringify.

Lemma append_empty_r (s : string) : s +:+ "" = s.
Proof. induction s as [|c s IH]; [done|]. by rewrite append_cons, IH. Qed.

Lemma bracket_app (o c : ascii) (body rest : string) :
  (String o "" +:+ body +:+ String c "") +:+ rest = String o (body +:+ String c rest).
Proof. by rewrite !append_assoc_s. Qed.

Lemma bracket_length (o c : ascii) (body : string) :
  String.length (String o "" +:+ body +:+ String c "") = S (S (String.length body)).
Proof. rewrite append_cons, append_nil. cbn [String.length]. rewrite length_append_s. cbn [String.length]. lia. Qed.

(** Every JSON value reads back. *)
Lemma json_value_reads_back x : reads_back x.
Proof.
  induction x as [| |b|n|s|elems IH|props IH] using jsval_nested_ind;
    intros Hjson fuel rest Hfuel Hrest;
    (destruct fuel as [|f]; [lia|]).
  - done.
  - reflexivity.
  - by destruct b.
  - change (element_text (VNum n)) with (Number_toString n) in *.
    destruct (numeral_head n) as (c & r & Hn & Hc).
    rewrite Hn, append_cons, parse_value_number by done.
    rewrite <- append_cons, <- Hn. by rewrite parse_number_toString.
  - change (element_text (VStr s)) with (QuoteJSONString s).
    rewrite QuoteJSONString_app, parse_value_string.
    by rewrite parse_chars_quote_chars.
  - change (element_text (VArr elems))
      with ("[" +:+ join_comma (map element_text elems) +:+ "]") in *.
    cbn [json_value] in Hjson.
    rewrite bracket_app, parse_value_array. rewrite bracket_length in Hfuel.
    destruct elems as [|x elems]; [done|].
    destruct (stringify_head x _ (json_value_serialized x
                (proj1 (andb_prop _ _ Hjson)))) as (c & r & Hhead & Hws & Hclose & _).
    assert (∃ r', join_comma (map element_text (x :: elems)) +:+ String "]" rest
                  = String c r') as [r' Hjoin].
    { destruct elems; cbn [map join_comma]; rewrite Hhead, ?append_cons; by eexists. }
    rewrite Hjoin, skip_ws_keep, Hclose by done. rewrite <- Hjoin.
    rewrite parse_elements_join by (done || lia). done.
  - cbn [json_value] in Hjson. apply andb_true_iff in Hjson as [Hord Hjson].
    assert (element_text (VObj props)
            = "{" +:+ join_comma (map member_text props) +:+ "}") as Htext.
    { unfold element_text. cbn [JSON_stringify default].
      by rewrite omap_member_text. }
    rewrite Htext in *.
    rewrite bracket_app, parse_value_object. rewrite bracket_length in Hfuel.
    destruct props as [|[k v] props]; [done|].
    assert (∃ r', join_comma (map member_text ((k, v) :: props)) +:+ String "}" rest
                  = String dquote r') as [r' Hjoin].
    { destruct props; cbn [map join_comma]; unfold member_text at 1;
        unfold QuoteJSONString; rewrite ?append_cons; by eexists. }
    rewrite Hjoin, skip_ws_keep by done.
    change (Ref.code dquote =? 125)%N with false. cbv iota. rewrite <- Hjoin.
    rewrite parse_members_join by (done || lia).
    by rewrite object_of_members_in_order.
Qed.

(** The reference [JSON.parse] inverts [JSON.stringify] on JSON values. *)
Lemma JSON_parse_stringify x :
  json_value x = true → Ref.JSON_parse (element_text x) = OK x.
Proof.
  intros Hjson. unfold Ref.JSON_parse.
  rewrite <- (append_empty_r (element_text x)) at 2.
  rewrite (json_value_reads_back x Hjson) by (done || lia). done.
Qed.

(** ** The serialization of a JSON value is ASCII text *)

Lemma ascii_only_uint u : ascii_only (NilEmpty.string_of_uint u) = true.
Proof.
  induction u as [|u IH|u IH|u IH|u IH|u IH|u IH|u IH|u IH|u IH|u IH];
    cbn [NilEmpty.string_of_uint]; rewrite ?ascii_only_cons, ?IH; done.
Qed.

Lemma ascii_only_numeral n : ascii_only (Number_toString n) = true.
Proof.
  unfold Number_toString.
  destruct (Z.to_int n) as [u|u]; cbn [NilZero.string_of_int];
    rewrite ?ascii_only_cons;
    (destruct u; [done | apply ascii_only_uint ..]).
Qed.

Lemma ascii_only_quote_char c :
  (N_of_ascii c <? 128)%N = true → ascii_only (quote_char c) = true.
Proof. destruct c as [[] [] [] [] [] [] [] []]; first [discriminate | reflexivity]. Qed.

Lemma ascii_only_quote s : ascii_only s = true → ascii_only (QuoteJSONString s) = true.
Proof.
  intros Hs. unfold QuoteJSONString.
  rewrite ascii_only_cons, ascii_only_app. cbn [andb].
  rewrite andb_true_r. change (N_of_ascii dquote <? 128)%N with true. cbn [andb].
  induction s as [|c s IH]; [done|].
  rewrite ascii_only_cons in Hs. apply andb_true_iff in Hs as [Hc Hs].
  cbn [quote_chars]. rewrite ascii_only_app, ascii_only_quote_char, IH; done.
Qed.

Lemma ascii_only_join (l : list string) :
  forallb ascii_only l = true → ascii_only (join_comma l) = true.
Proof.
  induction l as [|s l IH]; [done|].
  cbn [forallb]. intros [Hs Hl]%andb_true_iff.
  destruct l as [|s' l]; [done|].
  change (join_comma (s :: s' :: l)) with (s +:+ "," +:+ join_comma (s' :: l)).
  rewrite !ascii_only_app, Hs, IH; done.
Qed.

Lemma stringify_ascii x : json_value x = true → ascii_only (element_text x) = true.
Proof.
  induction x as [| |b|n|s|elems IH|props IH] using jsval_nested_ind; intros Hjson.
  - done.
  - done.
  - by destruct b.
  - apply ascii_only_numeral.
  - by apply ascii_only_quote.
  - change (element_text (VArr elems))
      with ("[" +:+ join_comma (map element_text elems) +:+ "]").
    rewrite !ascii_only_app, ascii_only_join; [done|].
    cbn [json_value] in Hjson.
    induction elems as [|x elems IHl]; [done|].
    apply Forall_cons_1 in IH as [Hx IH].
    cbn [forallb map] in *. apply andb_true_iff in Hjson as [Hjx Hjson].
    rewrite Hx, IHl; done.
  - cbn [json_value] in Hjson. apply andb_true_iff in Hjson as [_ Hjson].
    assert (element_text (VObj props)
            = "{" +:+ join_comma (map member_text props) +:+ "}") as ->.
    { unfold element_text. cbn [JSON_stringify default].
      by rewrite omap_member_text. }
    rewrite !ascii_only_app, ascii_only_join; [done|].
    induction props as [|[k v] props IHl]; [done|].
    apply Forall_cons_1 in IH as [Hv IH]. cbn [snd] in Hv.
    cbn [forallb map fst snd] in *.
    apply andb_true_iff in Hjson as [[Hk Hjv]%andb_true_iff Hjson].
    rewrite IHl by done. rewrite andb_true_r.
    unfold member_text. cbn [fst snd].
    rewrite !ascii_only_app, ascii_only_quote, Hv; done.
Qed.

(** ** The round trip, in the reference runtime *)

(** X18.  In the reference runtime every JSON value (no [undefined]
    inside, ASCII strings, object keys once each and in property order) is
    serializable, and when its serialization has fewer than 65534 bytes,
    decoding the buffer that [encode] makes of it gives the value back. *)
Theorem reference_round_trip (x : jsval) :
  json_value x = true →
  @serializable ref_runtime x ∧
  (@byteLength ref_runtime x < 65534 →
   @encode ref_runtime x ≫= @decode ref_runtime = OK x).
Proof.
  intros Hjson.
  assert (@JSON_parse ref_runtime
            (@TextDecoder_decode ref_runtime
               (@TextEncoder_encode ref_runtime (element_text x))) = OK x) as Hback.
  { change (Ref.JSON_parse (Ref.TextDecoder_decode
              (Ref.TextEncoder_encode (element_text x))) = OK x).
    rewrite decode_encode_text by (by apply stringify_ascii).
    by apply JSON_parse_stringify. }
  split.
  - exists (element_text x). split; [by apply json_value_serialized | exact Hback].
  - intros Hlt. rewrite decode_encode_parse by done.
    unfold objectBytes. rewrite (json_value_serialized x Hjson). exact Hback.
Qed.

Lemma reference_round_trip_witness :
  json_value sample_object = true ∧
  @byteLength ref_runtime sample_object < 65534 ∧
  @encode ref_runtime sample_object ≫= @decode ref_runtime = OK sample_object.
Proof.
  assert (json_value sample_object = true) as Hjson by (vm_compute; reflexivity).
  assert (@byteLength ref_runtime sample_object < 65534) as Hlt
    by (vm_compute; reflexivity).
  split; [exact Hjson|]. split; [exact Hlt|].
  exact (proj2 (reference_round_trip sample_object Hjson) Hlt).
Defined.

(** ** What comes back when the value is no JSON value *)

Lemma stringify_image x : JSON_stringify (json_image x) = JSON_stringify x.
Proof.
  induction x as [| |b|n|s|elems IH|props IH] using jsval_nested_ind; try done.
  - cbn [json_image JSON_stringify]. do 4 f_equal.
    induction elems as [|x elems IHl]; [done|].
    apply Forall_cons_1 in IH as [Hx IH].
    cbn [map]. rewrite IHl by done. f_equal.
    destruct x; try done; by rewrite Hx.
  - cbn [json_image JSON_stringify]. do 4 f_equal.
    induction props as [|[k v] props IHl]; [done|].
    apply Forall_cons_1 in IH as [Hv IH]. cbn [snd] in Hv.
    cbn [omap list_omap fst snd].
    change (list_omap ?f ?l) with (omap f l). rewrite <- IHl by done.
    destruct v; try done; cbn [omap list_omap fst snd]; by rewrite Hv.
Qed.

Lemma reference_reads_text y :
  json_value y = true →
  @JSON_parse ref_runtime
    (@TextDecoder_decode ref_runtime (@TextEncoder_encode ref_runtime (element_text y)))
  = OK y.
Proof.
  intros Hjson.
  change (Ref.JSON_parse (Ref.TextDecoder_decode
            (Ref.TextEncoder_encode (element_text y))) = OK y).
  rewrite decode_encode_text by (by apply stringify_ascii).
  by apply JSON_parse_stringify.
Qed.

(** X19.  In the reference runtime, what [decode] gives back from the
    buffer of [encode] is the JSON image of the value: [undefined]
    elements of arrays come back as [null] and properties whose value is
    [undefined] do not come back, whenever that image is a JSON value and
    the serialization has fewer than 65534 bytes. *)
Theorem reference_round_trip_image (x : jsval) :
  json_value (json_image x) = true →
  @byteLength ref_runtime x < 65534 →
  @encode ref_runtime x ≫= @decode ref_runtime = OK (json_image x).
Proof.
  intros Hjson Hlt. rewrite decode_encode_parse by done.
  unfold objectBytes. rewrite <- stringify_image.
  rewrite (json_value_serialized _ Hjson).
  by apply reference_reads_text.
Qed.

Lemma reference_round_trip_image_witness :
  @encode ref_runtime sparse_object ≫= @decode ref_runtime
  = OK (VObj [("to", VArr [VStr "bob"; VNull]); ("n", VNum 7)]).
Proof.
  apply (reference_round_trip_image sparse_object); vm_compute; reflexivity.
Defined.

(** X20.  With a module loaded and the reference runtime,
    [extractIdentity] returns the JSON value that the module serialized:
    when the module answers the serialization of a JSON value, that value
    is the result. *)
Theorem extractIdentity_reads_back (c : Client) (m : WasmModule)
    (bytes : list byte) (identity : jsval) :
  module c = Some m →
  json_value identity = true →
  wasm_extract_identity m bytes = OK (element_text identity) →
  @extractIdentity ref_runtime c bytes = OK identity.
Proof.
  intros Hm Hjson Hout. unfold extractIdentity. rewrite Hm, Hout.
  change (Ref.JSON_parse (element_text identity) = OK identity).
  by apply JSON_parse_stringify.
Qed.

Lemma extractIdentity_reads_back_witness :
  @extractIdentity ref_runtime loaded_client [] = OK (VObj []).
Proof.
  apply (extractIdentity_reads_back loaded_client sample_module [] (VObj []));
    reflexivity.
Defined.

(** X21.  The framing throws nothing but 'Too large to encrypt': the
    allocation of the buffer and the copy into it never fail. *)
Theorem encode_throws_only_TooLarge `{Runtime} (x : jsval) (e : error) :
  encode x = Throw e → e = TooLarge ∧ 65534 ≤ byteLength x.
Proof.
  intros Hthrow.
  destruct (Z.le_gt_cases 65534 (byteLength x)) as [Hge|Hlt].
  - split; [|done]. unfold encode in Hthrow. fold (byteLength x) in Hthrow.
    destruct (Z.leb_spec (65536 - 2) (byteLength x)); [congruence | lia].
  - rewrite encode_below_limit in Hthrow by done. discriminate.
Qed.

Lemma encode_throws_only_TooLarge_witness :
  encode (letters 70000) = Throw TooLarge ∧
  65534 ≤ byteLength (letters 70000).
Proof.
  assert (encode (letters 70000) = Throw TooLarge) as Hthrow
    by (vm_compute; reflexivity).
  split; [exact Hthrow|].
  exact (proj2 (encode_throws_only_TooLarge (letters 70000) TooLarge Hthrow)).
Defined.

(** ** Expiry *)

(** X22.  An entry whose [validUntil] is a number (or absent, [null] or a
    boolean) never comes back to life: if it is served at some time, it is
    served at every earlier time; once it is found stale it stays stale. *)
Theorem expiry_is_final `{Runtime} (now now' : Z) (cached : jsval) :
  now ≤ now' →
  match get_prop cached "validUntil" with
  | VStr _ | VArr _ | VObj _ => False
  | _ => True
  end →
  valid_entry now' cached = true → valid_entry now cached = true.
Proof.
  intros Hle Hnum. unfold valid_entry.
  destruct (truthy cached); [|done].
  destruct (negb (length (Object_keys cached) =? 0)%nat); [|done].
  cbn [andb].
  destruct (get_prop cached "validUntil") as [| |b|n| | |]; try done;
    cbn [truthy ge negb orb].
  - destruct b; cbn [negb orb]; [|done].
    rewrite !negb_true_iff, !Z.leb_gt. lia.
  - destruct (n =? 0); cbn [negb orb]; [done|].
    rewrite !negb_true_iff, !Z.leb_gt. lia.
Qed.

Lemma expiry_is_final_witness :
  valid_entry 1700000000000 (sample_entry 1700000000500) = true ∧
  valid_entry 1600000000000 (sample_entry 1700000000500) = true.
Proof.
  assert (valid_entry 1700000000000 (sample_entry 1700000000500) = true) as Hlate
    by (vm_compute; reflexivity).
  split; [exact Hlate|].
  apply (expiry_is_final 1600000000000 1700000000000); [lia | exact I | exact Hlate].
Defined.
